(** * node-simctl: the command invoker and the device-listing parsers

    A shallow embedding of [lib/simctl.js].  JavaScript strings are lists of
    characters (code units below 256), plain objects used as dictionaries
    are finite maps together with what they inherit from [Object.prototype],
    regular-expression literals are syntax trees run by a backtracking
    matcher that follows the ECMAScript matching order, and every function
    that can throw returns a [completion].  Functions that talk to the
    simulator tool, the file system or the log are functions of the history
    of such events; what the collaborators answer is a parameter.

    The first part holds the definitions, the second the properties. *)

From Stdlib Require Import ZArith Ascii String List Lia Bool.
From stdpp Require Import gmap strings list.

Set Default Proof Using "Type".
Open Scope list_scope.

(** ** JavaScript strings *)

Abbreviation jstring := (list ascii).

Definition js (s : string) : jstring := list_ascii_of_string s.
Arguments js : simpl never.

Definition code (a : ascii) : nat := nat_of_ascii a.

(** The members of [WhiteSpace] and [LineTerminator] below code point 256:
    what [\s] matches and what [String.prototype.trim] strips. *)
Definition is_space (a : ascii) : bool :=
  let n := code a in
  ((9 <=? n) && (n <=? 13)) || (n =? 32) || (n =? 160).

(** [\w] is [[A-Za-z0-9_]]. *)
Definition is_word (a : ascii) : bool :=
  let n := code a in
  ((48 <=? n) && (n <=? 57)) || ((65 <=? n) && (n <=? 90))
  || (n =? 95) || ((97 <=? n) && (n <=? 122)).

(** [.] matches everything but a line terminator. *)
Definition is_dot (a : ascii) : bool :=
  let n := code a in
  negb ((n =? 10) || (n =? 13)).

Definition nl : ascii := ascii_of_nat 10.
Definition bar : ascii := ascii_of_nat 124.

Fixpoint drop_while (p : ascii -> bool) (s : jstring) : jstring :=
  match s with
  | [] => []
  | a :: s' => if p a then drop_while p s' else s
  end.

(** [s.trim()] *)
Definition trim (s : jstring) : jstring :=
  rev (drop_while is_space (rev (drop_while is_space s))).

(** [s.split(sep)] for a separator of one character; the result is never
    empty: [''.split(sep)] is [['']]. *)
Fixpoint split (sep : ascii) (s : jstring) : list jstring :=
  match s with
  | [] => [[]]
  | a :: s' =>
      if Ascii.eqb a sep then [] :: split sep s'
      else match split sep s' with
           | p :: ps => (a :: p) :: ps
           | [] => [[a]]
           end
  end.

Fixpoint starts_with (pat s : jstring) : bool :=
  match pat, s with
  | [], _ => true
  | _ :: _, [] => false
  | a :: pat', b :: s' => Ascii.eqb a b && starts_with pat' s'
  end.

(** [s.replace(pat, rep)] for a string pattern: the first occurrence only. *)
Fixpoint replace (pat rep s : jstring) : jstring :=
  if starts_with pat s then rep ++ drop (length pat) s
  else match s with
       | [] => []
       | a :: s' => a :: replace pat rep s'
       end.

(** [s.indexOf(pat) > -1] *)
Fixpoint includes (pat s : jstring) : bool :=
  starts_with pat s ||
  match s with
  | [] => false
  | _ :: s' => includes pat s'
  end.

(** ** Regular expressions *)

Module RegExp.

Inductive regex : Type :=
| Eps
| Chr (p : ascii -> bool)
| Seq (r1 r2 : regex)
| Group (i : nat) (r : regex)
| Opt (r : regex)
| Star (r : regex).

Definition Plus (r : regex) : regex := Seq r (Star r).

Fixpoint Lit (s : jstring) : regex :=
  match s with
  | [] => Eps
  | a :: s' => Seq (Chr (Ascii.eqb a)) (Lit s')
  end.

Fixpoint Rep (n : nat) (r : regex) : regex :=
  match n with
  | 0 => Eps
  | S n' => Seq r (Rep n' r)
  end.

(** Captures: the numbered groups that took part in the match. *)
Definition caps := list (nat * jstring).

Fixpoint cap (i : nat) (c : caps) : option jstring :=
  match c with
  | [] => None
  | (j, s) :: c' => if Nat.eqb i j then Some s else cap i c'
  end.

Definition set_cap (i : nat) (s : jstring) (c : caps) : caps := (i, s) :: c.

Fixpoint groups (r : regex) : list nat :=
  match r with
  | Eps | Chr _ => []
  | Seq r1 r2 => groups r1 ++ groups r2
  | Group i r => i :: groups r
  | Opt r | Star r => groups r
  end.

Definition clear (gs : list nat) (c : caps) : caps :=
  match gs with
  | [] => c
  | _ => List.filter (fun e => negb (existsb (Nat.eqb (fst e)) gs)) c
  end.

(** A matcher state is the rest of the input and the captures so far. *)
Definition cont := jstring -> caps -> option (jstring * caps).

(** A greedy [*] around a matcher [body]: one more iteration is tried
    first, then the continuation.  An iteration that consumes nothing is
    rejected, as in [RepeatMatcher], so [length s] turns are enough; the
    groups [gs] inside the quantifier are cleared when an iteration
    starts. *)
Fixpoint star (body : cont -> cont) (gs : list nat) (k : cont)
    (n : nat) (s : jstring) (c : caps) {struct n} : option (jstring * caps) :=
  match n with
  | 0 => k s c
  | S n' =>
      match body (fun s' c' =>
                    if length s' <? length s then star body gs k n' s' c' else None)
              s (clear gs c) with
      | Some x => Some x
      | None => k s c
      end
  end.

(** The backtracking matcher in continuation style: [run r k s c] tries
    the ways [r] can match a prefix of [s] in the order of the language
    specification and returns the first one that [k] accepts. *)
Fixpoint run (r : regex) (k : cont) (s : jstring) (c : caps) {struct r}
  : option (jstring * caps) :=
  match r with
  | Eps => k s c
  | Chr p =>
      match s with
      | a :: s' => if p a then k s' c else None
      | [] => None
      end
  | Seq r1 r2 => run r1 (run r2 k) s c
  | Group i r1 =>
      run r1 (fun s' c' => k s' (set_cap i (take (length s - length s') s) c')) s c
  | Opt r1 =>
      match run r1 (fun s' c' => if length s' <? length s then k s' c' else None)
              s (clear (groups r1) c) with
      | Some x => Some x
      | None => k s c
      end
  | Star r1 => star (run r1) (groups r1) k (length s) s c
  end.

Definition accept : cont := fun s c => Some (s, c).

(** The array returned by [exec]: [m_full] is element 0, [m_caps] the
    numbered groups. *)
Record match_result := { m_full : jstring; m_caps : caps }.

(** The search of [RegExpBuiltinExec]: the leftmost start at or after the
    current position; [idx] counts the characters before [s].  The result
    carries the end index, which a global expression stores in
    [lastIndex]. *)
Fixpoint search (r : regex) (s : jstring) (idx : nat) : option (match_result * nat) :=
  match run r accept s [] with
  | Some (rest, c) =>
      let n := length s - length rest in
      Some ({| m_full := take n s; m_caps := c |}, idx + n)
  | None =>
      match s with
      | [] => None
      | _ :: s' => search r s' (S idx)
      end
  end.

(** [re.exec(s)] for an expression with the [g] flag, started at
    [lastIndex]. [None] is [null], after which [lastIndex] is 0 again. *)
Definition exec_global (r : regex) (s : jstring) (lastIndex : nat)
  : option (match_result * nat) :=
  if length s <? lastIndex then None else search r (drop lastIndex s) lastIndex.

(** [re.exec(s)] without the [g] flag: always from index 0. *)
Definition exec (r : regex) (s : jstring) : option match_result :=
  fst <$> search r s 0.

End RegExp.

(** ** Values, errors and completions *)

(** A device entry of a listing. A field holds [None] where the JavaScript
    object has [undefined] (or, for [sdk], no such property). *)
Record DeviceRecord := {
  name : option jstring;
  udid : option jstring;
  state : option jstring;
  sdk : option jstring
}.

(** What the process-execution collaborator resolves to. *)
Record exec_result := { stdout : option jstring; stderr : option jstring }.

Inductive error : Type :=
| Error (message : jstring)
| TypeError (message : jstring)
| ReferenceError (message : jstring)
| ExecError (message : jstring) (e_stderr : option jstring).

(** [e.stderr] *)
Definition error_stderr (e : error) : option jstring :=
  match e with
  | ExecError _ s => s
  | _ => None
  end.


Inductive completion (A : Type) : Type :=
| Ok (a : A)
| Throw (e : error).
Arguments Ok {A} a.
Arguments Throw {A} e.

Definition bind {A B} (x : completion A) (f : A -> completion B) : completion B :=
  match x with
  | Ok a => f a
  | Throw e => Throw e
  end.

Notation "x <- e1 ;; e2" := (bind e1 (fun x => e2))
  (at level 100, e1 at next level, right associativity).

(** A string is truthy unless it is empty; [undefined] and [null] are falsy. *)
Definition truthy (v : option jstring) : bool :=
  match v with
  | Some (_ :: _) => true
  | _ => false
  end.

(** [ToPropertyKey]: [undefined] used as a key is the string ["undefined"]. *)
Definition to_key (v : option jstring) : jstring :=
  match v with
  | Some s => s
  | None => js "undefined"
  end.

(** ** Plain objects used as dictionaries *)

(** The property names every object literal inherits from
    [Object.prototype]; each of them reads as a truthy value (a function,
    or the prototype itself for [__proto__]) that has no [push]. *)
Definition object_prototype_names : list jstring :=
  map js ["constructor"; "__defineGetter__"; "__defineSetter__";
          "hasOwnProperty"; "__lookupGetter__"; "__lookupSetter__";
          "isPrototypeOf"; "propertyIsEnumerable"; "toString"; "valueOf";
          "__proto__"; "toLocaleString"]%string.

Definition inherited (k : jstring) : bool :=
  bool_decide (k ∈ object_prototype_names).

Definition proto_key : jstring := js "__proto__".

(** The [devices] object of the section-format parser. [own] holds its own
    properties.  Assigning to [__proto__] does not create a property: it
    replaces the prototype, so [proto] is [Some l] once the prototype is an
    array [l] and [None] while it is still [Object.prototype]. *)
Record object := {
  own : gmap jstring (list DeviceRecord);
  proto : option (list DeviceRecord)
}.

Definition empty_object : object := {| own := ∅; proto := None |}.

Definition not_a_function : error := TypeError (js "devices[sdk].push is not a function").

(** [devices[k] = []] *)
Definition assign_empty (devices : object) (k : jstring) : object :=
  if bool_decide (k = proto_key)
  then {| own := own devices; proto := Some [] |}
  else {| own := <[k := []]> (own devices); proto := proto devices |}.

(** [devices[k].push(d)]: only an array has a [push] to call; whatever else
    the lookup finds along the prototype chain (nothing, a function, a
    number, a record) ends in a [TypeError]. *)
Definition push_device (devices : object) (k : jstring) (d : DeviceRecord)
  : completion object :=
  if bool_decide (k = proto_key) then
    match proto devices with
    | Some l => Ok {| own := own devices; proto := Some (l ++ [d]) |}
    | None => Throw not_a_function
    end
  else
    match own devices !! k with
    | Some l => Ok {| own := <[k := l ++ [d]]> (own devices); proto := proto devices |}
    | None => Throw not_a_function
    end.

(** What a property read on the [devices] object of the delimited-format
    parser gives; its prototype stays [Object.prototype]. *)
Inductive value : Type :=
| VUndefined
| VArray (l : list DeviceRecord)
| VInherited (k : jstring).

Definition get_property (devices : gmap jstring (list DeviceRecord)) (k : jstring) : value :=
  match devices !! k with
  | Some l => VArray l
  | None => if inherited k then VInherited k else VUndefined
  end.

(** Modelled from the spec: [log.errorAndThrow] belongs to the logging
    collaborator, not to the sources.  It logs its argument and throws it,
    wrapped in [new Error] when it is a message. *)
Inductive loggable : Type :=
| Message (m : jstring)
| Exception (e : error).

Definition errorAndThrow {A} (x : loggable) : completion A :=
  match x with
  | Message m => Throw (Error m)
  | Exception e => Throw e
  end.

(** ** Section-format listing: [getDevicesByParsing] *)

Import RegExp.

(** [/-- iOS (.+) --(\n\s{4}.+)*/mg] *)
Definition deviceSectionRe : regex :=
  Seq (Lit (js "-- iOS "))
  (Seq (Group 1 (Plus (Chr is_dot)))
  (Seq (Lit (js " --"))
       (Star (Group 2 (Seq (Chr (Ascii.eqb nl))
                      (Seq (Rep 4 (Chr is_space)) (Plus (Chr is_dot)))))))).

(** [/([^\s].+) \((\w+-.+\w+)\) \((\w+\s?\w+)\)/] *)
Definition lineRe : regex :=
  Seq (Group 1 (Seq (Chr (fun a => negb (is_space a))) (Plus (Chr is_dot))))
  (Seq (Lit (js " ("))
  (Seq (Group 2 (Seq (Plus (Chr is_word))
                (Seq (Chr (Ascii.eqb "-"%char))
                (Seq (Plus (Chr is_dot)) (Plus (Chr is_word))))))
  (Seq (Lit (js ") ("))
  (Seq (Group 3 (Seq (Plus (Chr is_word))
                (Seq (Opt (Chr is_space)) (Plus (Chr is_word)))))
       (Lit (js ")")))))).

(** The loop [while (match !== null) { matches.push(match); match = re.exec(stdout) }].
    [None] when the fuel runs out. *)
Fixpoint exec_loop (fuel : nat) (r : regex) (s : jstring) (lastIndex : nat)
  : option (list match_result) :=
  match fuel with
  | 0 => None
  | S fuel' =>
      match exec_global r s lastIndex with
      | None => Some []
      | Some (m, lastIndex') => cons m <$> exec_loop fuel' r s lastIndex'
      end
  end.

(** [match[0].split('\n').slice(1)] *)
Definition section_lines (m : match_result) : list jstring :=
  drop 1 (split nl (m_full m)).

(** The inner loop over the lines of one section. *)
Fixpoint add_lines (sdk : option jstring) (lines : list jstring) (devices : object)
  : completion object :=
  match lines with
  | [] => Ok devices
  | line :: lines' =>
      match exec lineRe line with
      | None => Throw (Error (js "Could not match line: " ++ line))
      | Some lineMatch =>
          devices' <- push_device devices (to_key sdk)
                        {| name := cap 1 (m_caps lineMatch);
                           udid := cap 2 (m_caps lineMatch);
                           state := cap 3 (m_caps lineMatch);
                           sdk := sdk |} ;;
          add_lines sdk lines' devices'
      end
  end.

(** The outer loop [for (match of matches)]. *)
Fixpoint add_sections (matches : list match_result) (devices : object)
  : completion object :=
  match matches with
  | [] => Ok devices
  | m :: matches' =>
      let sdk := cap 1 (m_caps m) in
      devices' <- add_lines sdk (section_lines m) (assign_empty devices (to_key sdk)) ;;
      add_sections matches' devices'
  end.

(** [getDevicesByParsing], from the [stdout] that [simExec('list', 0,
    ['devices'])] resolved to (a rejected [simExec] propagates before any
    parsing).  The outer [option] is [None] when the collecting loop does
    not come to an end within [length stdout + 2] calls of [exec]. *)
Definition getDevicesByParsing (stdout : jstring) : option (completion object) :=
  matches ← exec_loop (length stdout + 2) deviceSectionRe stdout 0;
  Some (if length matches <? 1
        then errorAndThrow (Message (js "Could not find device section"))
        else add_sections matches empty_object).

(** ** Delimited-format listing: [getDevices] *)

(** One turn of [for (const item of items)]:
    [devices[sdk] = devices[sdk] || []] followed by [devices[sdk].push(...)].
    An inherited member is truthy, so it is kept in place of a fresh array,
    and the [push] that follows throws. *)
Definition add_item (devices : gmap jstring (list DeviceRecord)) (item : jstring)
  : completion (gmap jstring (list DeviceRecord)) :=
  let itemSegments := map trim (split bar item) in
  let key := to_key (itemSegments !! 4) in
  let d := {| udid := itemSegments !! 0;
              name := itemSegments !! 1;
              state := itemSegments !! 2;
              sdk := None |} in
  match get_property devices key with
  | VArray l => Ok (<[key := l ++ [d]]> devices)
  | VUndefined => Ok (<[key := [d]]> devices)
  | VInherited _ => Throw not_a_function
  end.

Fixpoint add_items (items : list jstring) (devices : gmap jstring (list DeviceRecord))
  : completion (gmap jstring (list DeviceRecord)) :=
  match items with
  | [] => Ok devices
  | item :: items' => devices' <- add_item devices item ;; add_items items' devices'
  end.

(** What [getDevices] returns: the whole mapping, or [devices[forSdk]]. *)
Inductive listing : Type :=
| AllDevices (devices : gmap jstring (list DeviceRecord))
| SdkDevices (v : value).

Definition unknown_sdk (forSdk : jstring) : error :=
  Error (js "Sdk '" ++ forSdk ++ js "' was not in list of simctl sdks").

(** [getDevices], from the [stdout] that [simExec('list', 0)] resolved to;
    [forSdk] is [None] for [null]. *)
Definition getDevices (stdout : jstring) (forSdk : option jstring) : completion listing :=
  devices <- add_items (split nl stdout) ∅ ;;
  if truthy forSdk then
    match get_property devices (to_key forSdk) with
    | VUndefined => Throw (unknown_sdk (to_key forSdk))
    | v => Ok (SdkDevices v)
    end
  else Ok (AllDevices devices).

(** ** Runtime lookup: [getRuntimeID] *)

Module Runtime.
(** An entry of [JSON.parse(stdout).runtimes]. *)
Record t := { name : jstring; identifier : jstring }.
End Runtime.

(** Identifier resolution in the body of the loop: a name that no
    enclosing scope binds throws a [ReferenceError].  [scope] lists the
    bindings that hold a runtime; the other names bound around the loop
    ([sdkName], [rant], [stdout], [runtimes], the imports and the functions
    of the module) hold none. *)
Definition resolve (scope : list (jstring * Runtime.t)) (x : jstring)
  : completion Runtime.t :=
  match List.find (fun b => bool_decide (fst b = x)) scope with
  | Some b => Ok (snd b)
  | None => Throw (ReferenceError (x ++ js " is not defined"))
  end.

(** [for (let runtime of runtimes) { if (item.name.indexOf("iOS 10.2") > -1)
    { rant = item.identifier } }]: the loop binds [runtime], the body reads
    [item]. *)
Fixpoint getRuntimeID_loop (runtimes : list Runtime.t) (rant : option jstring)
  : completion (option jstring) :=
  match runtimes with
  | [] => Ok rant
  | runtime :: runtimes' =>
      let scope := [(js "runtime", runtime)] in
      item <- resolve scope (js "item") ;;
      if includes (js "iOS 10.2") (Runtime.name item)
      then item' <- resolve scope (js "item") ;;
           getRuntimeID_loop runtimes' (Some (Runtime.identifier item'))
      else getRuntimeID_loop runtimes' rant
  end.

(** [getRuntimeID], from the [runtimes] of the parsed JSON listing. *)
Definition getRuntimeID (sdkName : jstring) (runtimes : list Runtime.t)
  : completion (option jstring) :=
  getRuntimeID_loop runtimes None.

(** ** Operations on the outside world *)

(** What an operation does to its collaborators, in order. *)
Inductive event : Type :=
| Executed (file : jstring) (args : list jstring) (timeout : Z)
    (env : gmap jstring jstring)
| Logged (x : loggable)
| Slept (ms : Z)
| Read (path : jstring)
| Removed (path : jstring).

(** The collaborators.  An answer may depend on everything that happened
    before it: [tool h] is how the process run that ends the history [h]
    completes, [file_contents h] how the read that ends [h] completes. *)
Record collaborators := {
  process_env : gmap jstring jstring;
  tool : list event -> completion exec_result;
  temp_path : list event -> jstring -> jstring -> jstring;
  file_contents : list event -> completion jstring;
  base64 : jstring -> jstring
}.

(** An asynchronous function: from the history so far to a completion and
    the history after it. *)
Definition M (A : Type) : Type := list event -> completion A * list event.

Definition ret {A} (a : A) : M A := fun h => (Ok a, h).

Definition throw {A} (e : error) : M A := fun h => (Throw e, h).

Definition bindM {A B} (x : M A) (f : A -> M B) : M B :=
  fun h =>
    match x h with
    | (Ok a, h') => f a h'
    | (Throw e, h') => (Throw e, h')
    end.

Notation "x <~ e1 ;; e2" := (bindM e1 (fun x => e2))
  (at level 100, e1 at next level, right associativity).

(** [try { body } catch (e) { handler }] *)
Definition try_catch {A} (body : M A) (handler : error -> M A) : M A :=
  fun h =>
    match body h with
    | (Ok a, h') => (Ok a, h')
    | (Throw e, h') => handler e h'
    end.

Definition emit (ev : event) : M unit := fun h => (Ok tt, h ++ [ev]).

Definition lift {A} (x : completion A) : M A := fun h => (x, h).

(** [log.errorAndThrow(x)] as an operation: the entry is written to the log
    before the error leaves. *)
Definition log_errorAndThrow {A} (x : loggable) : M A :=
  _ <~ emit (Logged x) ;; lift (errorAndThrow x).

(** [parseInt(n / d, 10)] for integers [n] and [d > 0] with
    [|n| <= 2^53 - 1]: the quotient is printed in decimal without an
    exponent and [parseInt] keeps the digits before the point, so the
    result is the quotient truncated toward zero. *)
Definition parseInt_quotient (n d : Z) : Z := Z.quot n d.

Definition max_safe_integer : Z := 2 ^ 53 - 1.

(** [`SIMCTL_CHILD_${key}`] *)
Definition child_key (key : jstring) : jstring := js "SIMCTL_CHILD_" ++ key.

Global Instance child_key_inj : Inj (=) (=) child_key.
Proof. intros k1 k2 H. unfold child_key in H. by simplify_list_eq. Qed.

(** Modelled from the spec: [_.mapKeys] and [_.defaults] are lodash's, not
    part of the sources.  [_.mapKeys(env, f)] renames the keys of a
    dictionary, here for an [f] that keeps keys apart. *)
Definition mapKeys (f : jstring -> jstring) `{!Inj (=) (=) f}
  (env : gmap jstring jstring) : gmap jstring jstring := kmap f env.

(** [_.defaults(object, source)] on dictionaries: a key of [source] is
    copied unless [object] has it. *)
Definition defaults (object source : gmap jstring jstring) : gmap jstring jstring :=
  object ∪ source.

Section Operations.

Variable sys : collaborators.

(** The options object [{timeout, env}]. *)
Record options := { opt_timeout : Z; opt_env : gmap jstring jstring }.

Definition executor (R : Type) : Type := jstring -> list jstring -> options -> M R.

(** [exec] of the process-execution collaborator: run to completion. *)
Definition teen_process_exec : executor exec_result :=
  fun file args ob h =>
    let h' := h ++ [Executed file args (opt_timeout ob) (opt_env ob)] in
    (tool sys h', h').

(** The environment of the child: lines 14 to 16. *)
Definition child_env (env : gmap jstring jstring) : gmap jstring jstring :=
  defaults (mapKeys child_key env) (process_env sys).

(** The process run that the invoker asks for. *)
Definition run_event (command : jstring) (timeout : Z) (args : list jstring)
    (env : gmap jstring jstring) : event :=
  Executed (js "fbsimctl") (command :: args) timeout (child_env env).

Definition simCommand {R : Type} (command : jstring) (timeout : Z) (args : list jstring)
    (env : gmap jstring jstring) (executingFunction : executor R)
    (logErrors : bool) : M R :=
  let args := command :: args in
  let env := child_env env in
  try_catch
    (executingFunction (js "fbsimctl") args {| opt_timeout := timeout; opt_env := env |})
    (fun e =>
       if negb logErrors then throw e
       else match error_stderr e with
            | Some ((_ :: _) as stderr) =>
                log_errorAndThrow
                  (Message (js "simctl error running '" ++ command ++ js "': "
                            ++ trim stderr))
            | _ => log_errorAndThrow (Exception e)
            end).

(** [simExec]: the invoker with the run-to-completion executor.  Line 34
    of the source does not parse as written (a comma is missing, and the
    parameter list reads [o,b] where the body uses [ob]); the executor is
    read as the sibling [simSubProcess] writes it, [(c, a, ob) => exec(c,
    a, ob)]. *)
Definition simExec (command : jstring) (timeout : Z) (args : list jstring)
    (env : gmap jstring jstring) (logErrors : bool) : M exec_result :=
  simCommand command timeout args env
    (fun c a ob => teen_process_exec c a ob) logErrors.







(** Modelled from the spec: [retryInterval] is the retry primitive of the
    [asyncbox] package and is not part of the sources.  It runs the
    operation; on failure it waits [sleepMs] and runs it again, up to
    [times] attempts in all; the failure of the last attempt propagates
    unchanged, with no wait after it.  With no attempt to make it
    resolves to [null], here [None]. *)
Fixpoint retry_attempts {A} (remaining : nat) (sleepMs : Z) (fn : M A) : M (option A) :=
  match remaining with
  | 0 => ret None
  | S remaining' =>
      try_catch (a <~ fn ;; ret (Some a))
        (fun e =>
           match remaining' with
           | 0 => throw e
           | S _ => _ <~ emit (Slept sleepMs) ;; retry_attempts remaining' sleepMs fn
           end)
  end.

Definition retryInterval {A} (times : Z) (sleepMs : Z) (fn : M A) : M (option A) :=
  retry_attempts (Z.to_nat times) sleepMs fn.

Definition eraseDevice (udid : jstring) (timeout : Z) : M (option unit) :=
  let loopFn : M unit :=
    _ <~ simExec (js "erase") 10000 [udid] ∅ true ;; ret tt in
  let retries := parseInt_quotient timeout 200 in
  retryInterval retries 200 loopFn.

(** [eraseDevice(udid)] with the default [timeout = 1000]. *)
Definition eraseDevice_default (udid : jstring) : M (option unit) :=
  eraseDevice udid 1000.

(** [tempDir.path({prefix, suffix})]: a fresh path; nothing is created. *)
Definition tempDir_path (prefix suffix : jstring) : M jstring :=
  fun h => (Ok (temp_path sys h prefix suffix), h).

Definition fs_readFile (path : jstring) : M jstring :=
  fun h => let h' := h ++ [Read path] in (file_contents sys h', h').

Definition fs_rimraf (path : jstring) : M unit := emit (Removed path).

Definition getScreenshot (udid : jstring) : M jstring :=
  pathToScreenshotPng <~ tempDir_path (js "screenshot-" ++ udid) (js ".png") ;;
  _ <~ simExec (js "io") 0 [udid; js "screenshot"; pathToScreenshotPng] ∅ true ;;
  screenshotImg <~ fs_readFile pathToScreenshotPng ;;
  _ <~ fs_rimraf pathToScreenshotPng ;;
  ret (base64 sys screenshotImg).

End Operations.

(** ** The delimited-format listing, line by line *)

(** [item.split('|').map((x) => x.trim())] *)
Definition item_segments (item : jstring) : list jstring := map trim (split bar item).

(** The property key that a line is filed under. *)
Definition item_key (item : jstring) : jstring := to_key (item_segments item !! 4).

(** The record that a line gives. *)
Definition item_record (item : jstring) : DeviceRecord :=
  {| udid := item_segments item !! 0;
     name := item_segments item !! 1;
     state := item_segments item !! 2;
     sdk := None |}.

(** No line is filed under a name inherited from [Object.prototype]. *)
Definition plain_keys (items : list jstring) : Prop :=
  Forall (λ item, inherited (item_key item) = false) items.

(** The grouping in the words of the specification: the records of the
    lines whose SDK field is [k], in the order of the lines. *)
Definition records_for (k : jstring) (items : list jstring) : list DeviceRecord :=
  item_record <$> filter (λ item, item_key item = k) items.

(** ** The section-format listing, section by section *)

(** A greedy run over one character class: the furthest point that the
    continuation accepts, then the nearer ones. *)
Fixpoint scan {R : Type} (p : ascii -> bool) (k : jstring -> option R) (s : jstring)
  : option R :=
  match s with
  | a :: s' =>
      if p a then
        match scan p k s' with
        | Some x => Some x
        | None => k s
        end
      else k s
  | [] => k s
  end.

(** A matcher calls its continuation on what is left of its input. *)
Definition forward (body : cont -> cont) : Prop :=
  ∀ k s c x, body k s c = Some x →
             ∃ s' c', length s' ≤ length s ∧ k s' c' = Some x.

(** The scan stops where the class ends. *)
Definition stops (p : ascii -> bool) (rest : jstring) : Prop :=
  rest = [] ∨ ∃ a r, rest = a :: r ∧ p a = false.

Definition indent : jstring := js "    ".

(** The repeated group of [deviceSectionRe]: [(\n\s{4}.+)]. *)
Definition line_group : regex :=
  Group 2 (Seq (Chr (Ascii.eqb nl)) (Seq (Rep 4 (Chr is_space)) (Plus (Chr is_dot)))).

(** A section of a listing: the text between [-- iOS ] and [ --] in its
    header, and its device lines without their indentation. *)
Definition section : Type := jstring * list jstring.

Definition render_line (d : jstring) : jstring := nl :: indent ++ d.

Definition render_section (sec : section) : jstring :=
  js "-- iOS " ++ sec.1 ++ js " --" ++ concat (render_line <$> sec.2).

(** The sections one after the other, each on a line of its own. *)
Definition render_listing (secs : list section) : jstring :=
  match secs with
  | [] => []
  | sec :: secs' => render_section sec ++ concat ((λ s, nl :: render_section s) <$> secs')
  end.

(** The captures of [lineRe] on a line, none when it does not match. *)
Definition line_caps (line : jstring) : caps :=
  match exec lineRe line with
  | Some lineMatch => m_caps lineMatch
  | None => []
  end.

(** The record that a device line gives in a section [sdk]. *)
Definition device_of (sdk : option jstring) (line : jstring) : DeviceRecord :=
  {| name := cap 1 (line_caps line);
     udid := cap 2 (line_caps line);
     state := cap 3 (line_caps line);
     sdk := sdk |}.

(** A text without line terminators: what [.+] runs over. *)
Definition one_line (s : jstring) : Prop := Forall (λ a, is_dot a = true) s.

(** A well-formed device line: one line of text that, once indented, the
    device-line pattern matches. *)
Definition device_line (d : jstring) : Prop :=
  one_line d ∧ is_Some (exec lineRe (indent ++ d)).

Definition well_formed (sec : section) : Prop :=
  sec.1 ≠ [] ∧ one_line sec.1 ∧ Forall device_line sec.2.

(** The records of a section: one for each of its lines, in their order. *)
Definition section_records (sec : section) : list DeviceRecord :=
  (λ d, device_of (Some sec.1) (indent ++ d)) <$> sec.2.

(** Where a section match ends: at the end of the text, or before a line
    that does not start with white space (the header of the next section,
    for one). *)
Definition section_end (rest : jstring) : Prop :=
  rest = [] ∨ ∃ r, rest = nl :: r ∧ (r = [] ∨ ∃ a r', r = a :: r' ∧ is_space a = false).

(** How a section header starts. *)
Definition header_start : jstring := js "-- iOS ".

(** What may come before the first section: nothing, or whole lines with no
    header in them. *)
Definition preamble (pre : jstring) : Prop :=
  (pre = [] ∨ ∃ p, pre = p ++ [nl]) ∧ includes header_start pre = false.

(** What may come after the last section: nothing, or a line break and
    further text that neither continues the section nor holds a header. *)
Definition postamble (post : jstring) : Prop :=
  section_end post ∧ includes header_start post = false.

(** A match of the section pattern that is the section [sec]. *)
Definition section_match (sec : section) (m : match_result) : Prop :=
  m_full m = render_section sec ∧ cap 1 (m_caps m) = Some sec.1.

(** ** Device lines written out *)

(** A word: one or more of the characters of [\w]. *)
Definition word (w : jstring) : Prop := w ≠ [] ∧ Forall (λ a, is_word a = true) w.

(** A display name: two characters or more on one line, the first of them
    not white space. *)
Definition name_text (name : jstring) : Prop :=
  ∃ a rest, name = a :: rest ∧ is_space a = false ∧ rest ≠ [] ∧ one_line rest.

(** A udid: a word, a hyphen, then word characters and hyphens that end
    with a word character, two or more of them. *)
Definition udid_text (udid : jstring) : Prop :=
  ∃ w middle z,
    udid = w ++ "-"%char :: middle ++ [z] ∧ word w ∧ middle ≠ []
    ∧ Forall (λ a, is_word a = true ∨ a = "-"%char) middle ∧ is_word z = true.

(** A state: one word of two characters or more, or two words with one
    white-space character of the line between them. *)
Definition state_text (state : jstring) : Prop :=
  (∃ w z, state = w ++ [z] ∧ word w ∧ is_word z = true)
  ∨ (∃ w1 sp w2, state = w1 ++ sp :: w2 ∧ word w1 ∧ word w2
                 ∧ is_space sp = true ∧ is_dot sp = true).

(** The three groups of [lineRe]. *)
Definition nameGroup : regex :=
  Group 1 (Seq (Chr (fun a => negb (is_space a))) (Plus (Chr is_dot))).

Definition udidGroup : regex :=
  Group 2 (Seq (Plus (Chr is_word))
          (Seq (Chr (Ascii.eqb "-"%char))
          (Seq (Plus (Chr is_dot)) (Plus (Chr is_word))))).

Definition stateGroup : regex :=
  Group 3 (Seq (Plus (Chr is_word)) (Seq (Opt (Chr is_space)) (Plus (Chr is_word)))).

(** [<name> (<udid>) (<state>)] *)
Definition device_text (name udid state : jstring) : jstring :=
  name ++ js " (" ++ udid ++ js ") (" ++ state ++ js ")".

(** ** Shapes of histories and sample collaborators *)


Definition temp_name (prefix suffix : jstring) : jstring :=
  js "/tmp/" ++ prefix ++ suffix.

(** A tool that always fails and writes [text] to its standard error. *)
Definition failing_tool (text : jstring) : collaborators :=
  {| process_env := {[ js "HOME" := js "/Users/dev" ]};
     tool := fun _ => Throw (ExecError (js "Command failed") (Some text));
     temp_path := fun _ => temp_name;
     file_contents := fun _ => Ok [];
     base64 := id |}.

(** A tool that succeeds with the output [text], and a file store that
    refuses every read. *)
Definition unreadable_files (text : jstring) : collaborators :=
  {| process_env := ∅;
     tool := fun _ => Ok {| stdout := Some text; stderr := Some [] |};
     temp_path := fun _ => temp_name;
     file_contents := fun _ => Throw (Error (js "EACCES: permission denied"));
     base64 := id |}.

(** The listing in the comment of [getDevicesByParsing], with a second
    device in its first section. *)
Definition sample_listing : list section :=
  [ (js "8.1", [ js "iPhone 4s (3CA6E7DD-220E-45E5-B716-1E992B3A429C) (Shutdown)";
                 js "iPad Air 2 (5B4C2B37-6F0C-4B2E-9D1A-0E4F6A3C9D21) (Shutting Down)" ]);
    (js "8.2", [ js "iPhone 4s (A99FFFC3-8E19-4DCF-B585-7D9D46B4C16E) (Shutdown)" ]) ].

(** ** The commands *)




Section Commands.

Variable sys : collaborators.













End Commands.

(** A line of text that a section takes in: not empty, no line break. *)
Definition text_line (d : jstring) : Prop := d ≠ [] ∧ one_line d.

(** A section of such lines, whether the device-line pattern matches them
    or not. *)
Definition plain_section (sec : section) : Prop :=
  sec.1 ≠ [] ∧ one_line sec.1 ∧ Forall text_line sec.2.



(** A matcher leaves the captures of the groups outside [gs] as they
    were. *)
Definition keeps (gs : list nat) (body : cont -> cont) : Prop :=
  ∀ k s c x, body k s c = Some x →
             ∃ s' c', (∀ j, j ∉ gs → cap j c' = cap j c) ∧ k s' c' = Some x.

(** Group [i] takes part in every match of [r]: it is on the way of every
    match, and nothing after it clears it. *)
Fixpoint always_sets (i : nat) (r : regex) : bool :=
  match r with
  | Seq r1 r2 => always_sets i r2 || (always_sets i r1 && bool_decide (i ∉ groups r2))
  | Group j r1 => Nat.eqb i j || always_sets i r1
  | _ => false
  end.

(** A record with all its fields, filed under [k]. *)
Definition complete (k : jstring) (d : DeviceRecord) : Prop :=
  sdk d = Some k ∧ is_Some (name d) ∧ is_Some (udid d) ∧ is_Some (state d).

(** What holds of the [devices] object all along the loops of
    [getDevicesByParsing]. *)
Definition sound (devices : object) : Prop :=
  own devices !! proto_key = None
  ∧ ∀ k l, own devices !! k = Some l → Forall (complete k) l.

(** The [devices] object has an array to push to under [k]. *)
Definition has_array (devices : object) (k : jstring) : Prop :=
  if bool_decide (k = proto_key) then is_Some (proto devices)
  else is_Some (own devices !! k).

(** The lines of a match that the device-line pattern matches, all of
    them. *)
Definition lines_match (lines : list jstring) : Prop :=
  Forall (λ line, is_Some (exec lineRe line)) lines.

(** What may stand between two sections: a line break, then nothing or
    whole lines with no header in them, the first of which does not start
    with white space (the sections of another platform, for one). *)
Definition interlude (g : jstring) : Prop :=
  ∃ q, g = nl :: q ∧ preamble q ∧ (q = [] ∨ ∃ a q', q = a :: q' ∧ is_space a = false).

(** The sections after the first, each with what stands before it. *)
Definition render_spaced (rest : list (jstring * section)) : jstring :=
  concat ((λ gs, gs.1 ++ render_section gs.2) <$> rest).

(** A matcher calls its continuation on the input without the text that
    it has taken. *)
Definition consumes (body : cont -> cont) : Prop :=
  ∀ k s c x, body k s c = Some x → ∃ w s' c', s = w ++ s' ∧ k s' c' = Some x.

(** * Properties *)

(** ** Strings *)

Section StringFacts.

Implicit Types (s t : jstring) (sep : ascii).

Lemma split_nonempty sep s : split sep s ≠ [].
Proof.
  destruct s as [|a s]; simpl; [done|].
  destruct (Ascii.eqb a sep); [done|].
  by destruct (split sep s).
Qed.

Lemma split_no_sep sep s : sep ∉ s → split sep s = [s].
Proof.
  induction s as [|a s IH]; intros Hs; simpl; [done|].
  apply not_elem_of_cons in Hs as [Hne Hs].
  destruct (Ascii.eqb_spec a sep) as [->|_]; [done|].
  by rewrite IH.
Qed.

(** Splitting distributes over a separator. *)
Lemma split_app_sep sep s t :
  split sep (s ++ sep :: t) = split sep s ++ split sep t.
Proof.
  induction s as [|a s IH]; simpl.
  - by rewrite Ascii.eqb_refl.
  - destruct (Ascii.eqb a sep); [by rewrite IH|].
    rewrite IH. pose proof (split_nonempty sep s) as Hne.
    by destruct (split sep s).
Qed.

Lemma split_first_field sep s t :
  sep ∉ s → split sep (s ++ sep :: t) = s :: split sep t.
Proof. intros Hs. by rewrite split_app_sep, split_no_sep. Qed.




Lemma starts_with_app pat s : starts_with pat (pat ++ s) = true.
Proof. induction pat as [|a pat IH]; simpl; [done|]. by rewrite Ascii.eqb_refl. Qed.


Lemma includes_app pre pat post : includes pat (pre ++ pat ++ post) = true.
Proof.
  induction pre as [|a pre IH]; simpl.
  - destruct (pat ++ post) eqn:E; simpl; rewrite <- E; by rewrite starts_with_app.
  - rewrite IH. apply orb_true_r.
Qed.

End StringFacts.

(** ** The runtime lookup *)

Lemma getRuntimeID_empty sdkName : getRuntimeID sdkName [] = Ok None.
Proof. reflexivity. Qed.

(** C3. As written, the lookup never compares a runtime with the target
    platform string: the body of the loop reads the identifier [item],
    which nothing binds, so the first runtime of the listing ends the call
    with a [ReferenceError], whatever its name and whatever [sdkName]. *)
Theorem getRuntimeID_reference_error (sdkName : jstring) (r : Runtime.t)
    (rs : list Runtime.t) :
  getRuntimeID sdkName (r :: rs) = Throw (ReferenceError (js "item is not defined")).
Proof. reflexivity. Qed.

(** ** The child environment *)

Section Invoker.

Variable sys : collaborators.

Lemma child_env_override (E : gmap jstring jstring) k v :
  E !! k = Some v → child_env sys E !! child_key k = Some v.
Proof.
  intros Hk. unfold child_env, defaults, mapKeys.
  apply lookup_union_Some_l. rewrite lookup_kmap; [done | apply _].
Qed.

Lemma child_env_inherit (E : gmap jstring jstring) x v :
  process_env sys !! x = Some v →
  (∀ k, is_Some (E !! k) → child_key k ≠ x) →
  child_env sys E !! x = Some v.
Proof.
  intros Hx Hfresh. unfold child_env, defaults, mapKeys.
  rewrite lookup_union_r; [done|].
  apply lookup_kmap_None; [apply _|].
  intros k Hk. destruct (E !! k) eqn:Ek; [|done].
  exfalso. by eapply Hfresh; [rewrite Ek|].
Qed.

(** Every variable of the child is an override or comes from the process. *)
Lemma child_env_origin (E : gmap jstring jstring) x v :
  child_env sys E !! x = Some v →
  (∃ k, x = child_key k ∧ E !! k = Some v) ∨ process_env sys !! x = Some v.
Proof.
  unfold child_env, defaults, mapKeys. intros H.
  apply lookup_union_Some_raw in H as [H|[_ H]]; [left|by right].
  apply lookup_kmap_Some in H as (k & -> & Hk); [|apply _]. eauto.
Qed.

Lemma simCommand_executes {R} command timeout args E (f : executor R) logErrors h :
  simCommand sys command timeout args E f logErrors h =
  try_catch
    (f (js "fbsimctl") (command :: args)
       {| opt_timeout := timeout; opt_env := child_env sys E |})
    (λ e, if negb logErrors then throw e
          else match error_stderr e with
               | Some ((_ :: _) as stderr) =>
                   log_errorAndThrow
                     (Message (js "simctl error running '" ++ command ++ js "': "
                               ++ trim stderr))
               | _ => log_errorAndThrow (Exception e)
               end) h.
Proof. reflexivity. Qed.

(** The run-to-completion invoker starts the tool once, with the
    subcommand in front of the arguments and with the child environment. *)
Lemma simExec_history command timeout args E logErrors h :
  ∃ tail,
    snd (simExec sys command timeout args E logErrors h) =
    h ++ Executed (js "fbsimctl") (command :: args) timeout (child_env sys E) :: tail
    ∧ Forall (λ ev, ∃ x, ev = Logged x) tail.
Proof.
  unfold simExec. rewrite simCommand_executes.
  unfold try_catch, teen_process_exec.
  destruct (tool sys _) as [out|e]; simpl.
  - exists []. by split.
  - destruct logErrors; simpl.
    + destruct (error_stderr e) as [[|a st]|]; simpl;
        unfold log_errorAndThrow, bindM, emit, lift; simpl;
        rewrite <- app_assoc; simpl; eexists; split; eauto.
    + exists []. by split.
Qed.

(** C5. For every mapping [E] of overrides, the environment handed to
    the tool holds [SIMCTL_CHILD_k] with the value [E[k]] for every key
    [k] of [E], and every variable of the process environment whose name
    is not one of these prefixed keys, unchanged; this is the environment
    of the invocation that the invoker makes. *)
Theorem child_env_overlay (E : gmap jstring jstring) :
  (∀ k v, E !! k = Some v →
          child_env sys E !! (js "SIMCTL_CHILD_" ++ k) = Some v)
  ∧ (∀ x v, process_env sys !! x = Some v →
            (∀ k, is_Some (E !! k) → js "SIMCTL_CHILD_" ++ k ≠ x) →
            child_env sys E !! x = Some v)
  ∧ (∀ command timeout args logErrors h, ∃ tail,
       snd (simExec sys command timeout args E logErrors h) =
       h ++ Executed (js "fbsimctl") (command :: args) timeout (child_env sys E)
         :: tail).
Proof.
  split; [|split].
  - intros k v. apply child_env_override.
  - intros x v. apply child_env_inherit.
  - intros command timeout args logErrors h.
    destruct (simExec_history command timeout args E logErrors h) as (tail & Ht & _).
    eauto.
Qed.

End Invoker.

Lemma child_env_overlay_witness :
  child_env (failing_tool []) {[ js "DYLD_LIBRARY_PATH" := js "/opt/lib" ]}
    !! js "SIMCTL_CHILD_DYLD_LIBRARY_PATH" = Some (js "/opt/lib")
  ∧ child_env (failing_tool []) {[ js "DYLD_LIBRARY_PATH" := js "/opt/lib" ]}
      !! js "HOME" = Some (js "/Users/dev").
Proof.
  destruct (child_env_overlay (failing_tool [])
              {[ js "DYLD_LIBRARY_PATH" := js "/opt/lib" ]}) as (Hover & Hkeep & _).
  split.
  - apply (Hover (js "DYLD_LIBRARY_PATH")). vm_compute. reflexivity.
  - apply Hkeep; [vm_compute; reflexivity|].
    intros k _. discriminate.
Defined.

(** Closes [x ∉ l] for an explicit list [l] none of whose elements can be
    [x]. *)
Ltac absent :=
  let H := fresh in
  intros H;
  repeat first [ apply elem_of_app in H as [H|H]
               | apply elem_of_cons in H as [H|H] ];
  first [ discriminate H | by apply elem_of_nil in H ].

(** ** Failures of the invoker *)

Section InvokerFailures.

Variable sys : collaborators.

Lemma simExec_resolves command timeout args E logErrors h out :
  tool sys (h ++ [run_event sys command timeout args E]) = Ok out →
  simExec sys command timeout args E logErrors h =
  (Ok out, h ++ [run_event sys command timeout args E]).
Proof.
  intros Hout. unfold simExec. rewrite simCommand_executes.
  unfold try_catch, teen_process_exec, run_event in *.
  cbn [opt_timeout opt_env]. by rewrite Hout.
Qed.

(** With logging on, what leaves a failed [simExec] carries no
    standard-error text: either the underlying error had none, or it was
    replaced by a fresh [Error]. *)
Lemma simExec_rejects command timeout args E h e :
  tool sys (h ++ [run_event sys command timeout args E]) = Throw e →
  ∃ e' x,
    simExec sys command timeout args E true h =
    (Throw e', h ++ [run_event sys command timeout args E; Logged x])
    ∧ truthy (error_stderr e') = false.
Proof.
  intros He. unfold simExec. rewrite simCommand_executes.
  unfold try_catch, teen_process_exec, run_event in *.
  cbn [opt_timeout opt_env negb]. rewrite He.
  unfold log_errorAndThrow, bindM, emit, lift.
  destruct (error_stderr e) as [[|a st]|] eqn:Est; cbn [errorAndThrow];
    rewrite <- app_assoc; cbn [app].
  - exists e, (Exception e). by rewrite Est.
  - eexists _, _. by split.
  - exists e, (Exception e). by rewrite Est.
Qed.

(** C9. When the executor fails with [e]: without logging, [e] itself
    propagates; with logging and standard-error text on [e], an [Error]
    is raised whose message holds the subcommand name and the trimmed
    text; with logging and no such text, [e] itself is raised; in every
    case the invoker ends with an error, never with a result. *)
Theorem simCommand_failure {R : Type} (command : jstring) (timeout : Z)
    (args : list jstring) (E : gmap jstring jstring) (f : executor R)
    (logErrors : bool) (h h' : list event) (e : error) :
  f (js "fbsimctl") (command :: args)
    {| opt_timeout := timeout; opt_env := child_env sys E |} h = (Throw e, h') →
  let result := simCommand sys command timeout args E f logErrors h in
  (logErrors = false → result = (Throw e, h'))
  ∧ (logErrors = true → ∀ text, error_stderr e = Some text → text ≠ [] →
       let message := js "simctl error running '" ++ command ++ js "': " ++ trim text in
       result = (Throw (Error message), h' ++ [Logged (Message message)]))
  ∧ (logErrors = true → truthy (error_stderr e) = false →
       result = (Throw e, h' ++ [Logged (Exception e)]))
  ∧ (∃ e', fst result = Throw e').
Proof.
  intros Hf result. subst result. rewrite simCommand_executes.
  unfold try_catch. rewrite Hf.
  repeat split.
  - by intros ->.
  - intros -> text Htext Hne. cbn [negb]. rewrite Htext.
    destruct text; [congruence | reflexivity].
  - intros -> Hfalsy. cbn [negb].
    by destruct (error_stderr e) as [[|a st]|].
  - destruct logErrors; simpl; [|by eexists].
    destruct (error_stderr e) as [[|a st]|]; by eexists.
Qed.

(** ** Device creation *)




End InvokerFailures.

Lemma simCommand_failure_witness :
  let sys := failing_tool (js "  No devices are booted. ") in
  simCommand sys (js "erase") 10000 [js "A1B2"] ∅ (teen_process_exec sys) true [] =
  (Throw (Error (js "simctl error running 'erase': No devices are booted.")),
   [Executed (js "fbsimctl") [js "erase"; js "A1B2"] 10000
      {[ js "HOME" := js "/Users/dev" ]};
    Logged (Message (js "simctl error running 'erase': No devices are booted."))]).
Proof.
  intros sys.
  pose proof (simCommand_failure sys (js "erase") 10000 [js "A1B2"] ∅
                (teen_process_exec sys) true [] _ _ eq_refl) as H.
  cbv zeta in H. destruct H as (_ & H & _).
  rewrite (H eq_refl _ eq_refl); [|discriminate].
  vm_compute. reflexivity.
Defined.


(** ** Retried erase *)

Section Erase.

Variable sys : collaborators.
Variable udid : jstring.

Let run : event := run_event sys (js "erase") 10000 [udid] ∅.
Let loopFn : M unit := _ <~ simExec sys (js "erase") 10000 [udid] ∅ true ;; ret tt.






End Erase.


(** ** Screenshots *)

Section Screenshot.

Variable sys : collaborators.
Variable udid : jstring.

Let path (h : list event) : jstring :=
  temp_path sys h (js "screenshot-" ++ udid) (js ".png").
Let run (h : list event) : event :=
  run_event sys (js "io") 0 [udid; js "screenshot"; path h] ∅.

(** On the path where the tool and the read succeed, the file is removed. *)
Lemma getScreenshot_success h out img :
  tool sys (h ++ [run h]) = Ok out →
  file_contents sys (h ++ [run h; Read (path h)]) = Ok img →
  getScreenshot sys udid h =
  (Ok (base64 sys img), h ++ [run h; Read (path h); Removed (path h)]).
Proof.
  unfold run, path. intros Htool Hread.
  unfold getScreenshot, bindM, tempDir_path.
  rewrite (simExec_resolves _ _ _ _ _ _ _ _ Htool).
  unfold fs_readFile, fs_rimraf, emit, ret.
  rewrite <- !app_assoc. cbn [app]. by rewrite Hread.
Qed.

(** On every path where the call fails, nothing is removed. *)
Lemma getScreenshot_failure h e h' :
  getScreenshot sys udid h = (Throw e, h') →
  ∃ tr, h' = h ++ tr ∧ ∀ p, Removed p ∉ tr.
Proof.
  unfold getScreenshot, bindM, tempDir_path.
  destruct (tool sys (h ++ [run h])) as [out|e0] eqn:Htool; unfold run, path in Htool.
  - rewrite (simExec_resolves _ _ _ _ _ _ _ _ Htool).
    unfold fs_readFile, fs_rimraf, emit, ret.
    destruct (file_contents sys _) as [img|e1]; [done|].
    intros [= <- <-]. rewrite <- app_assoc. eexists. split; [done|].
    intros p. absent.
  - destruct (simExec_rejects _ _ _ _ _ _ _ Htool) as (e' & x & -> & _).
    intros [= <- <-]. eexists. split; [done|].
    intros p. absent.
Qed.

End Screenshot.

(** C2. The claim asks that the temporary path is removed on every exit
    path.  Here the tool writes the screenshot and succeeds, and the read
    of the file is refused: the call ends with the error of the read, and
    its history ends with that read; the path was never removed. *)
Theorem getScreenshot_leaves_file_on_failed_read :
  let path := js "/tmp/screenshot-A1B2.png" in
  let result := getScreenshot (unreadable_files []) (js "A1B2") [] in
  fst result = Throw (Error (js "EACCES: permission denied"))
  ∧ snd result =
      [Executed (js "fbsimctl") [js "io"; js "A1B2"; js "screenshot"; path] 0 ∅;
       Read path]
  ∧ Removed path ∉ snd result.
Proof.
  assert (getScreenshot (unreadable_files []) (js "A1B2") [] =
          (Throw (Error (js "EACCES: permission denied")),
           [Executed (js "fbsimctl")
              [js "io"; js "A1B2"; js "screenshot"; js "/tmp/screenshot-A1B2.png"] 0 ∅;
            Read (js "/tmp/screenshot-A1B2.png")])) as Hrun.
  { vm_compute. reflexivity. }
  cbv zeta. rewrite Hrun. cbn [fst snd]. split_and!; [done | done | absent].
Qed.

(** ** The delimited-format listing *)

Section Delimited.

Implicit Types (devices : gmap jstring (list DeviceRecord)) (item k : jstring).

Lemma drop_while_spaces l s :
  Forall (λ a, is_space a = true) l → drop_while is_space (l ++ s) = drop_while is_space s.
Proof. induction 1 as [|a l Ha _ IH]; simpl; [done|]. by rewrite Ha. Qed.

Lemma drop_while_stop a s : is_space a = false → drop_while is_space (a :: s) = a :: s.
Proof. intros Ha. simpl. by rewrite Ha. Qed.

(** [trim] strips the white space around a text that neither starts nor
    ends with white space. *)
Lemma trim_padded l c r :
  Forall (λ a, is_space a = true) l → Forall (λ a, is_space a = true) r →
  (∀ a, head c = Some a → is_space a = false) →
  (∀ a, last c = Some a → is_space a = false) →
  trim (l ++ c ++ r) = c.
Proof.
  intros Hl Hr Hhead Hlast. unfold trim. rewrite drop_while_spaces by done.
  destruct c as [|a c].
  - simpl. clear Hhead Hlast Hl.
    assert (drop_while is_space r = []) as ->; [|done].
    induction Hr as [|b r Hb _ IH]; simpl; [done|]. by rewrite Hb.
  - cbn [app]. rewrite drop_while_stop by (by apply Hhead).
    change (a :: c ++ r) with ((a :: c) ++ r). rewrite rev_app_distr.
    rewrite drop_while_spaces by (by apply Forall_rev).
    destruct (rev (a :: c)) as [|b t] eqn:Hrev.
    { apply (f_equal (@length _)) in Hrev. rewrite length_rev in Hrev. done. }
    rewrite drop_while_stop.
    + by rewrite <- Hrev, rev_involutive.
    + apply Hlast. rewrite <- (rev_involutive (a :: c)), Hrev.
      simpl. by rewrite last_snoc.
Qed.

Lemma add_item_unfold devices item :
  add_item devices item =
  match get_property devices (item_key item) with
  | VArray l => Ok (<[item_key item := l ++ [item_record item]]> devices)
  | VUndefined => Ok (<[item_key item := [item_record item]]> devices)
  | VInherited _ => Throw not_a_function
  end.
Proof. reflexivity. Qed.

Lemma records_for_cons k item items :
  records_for k (item :: items) =
  if decide (item_key item = k) then item_record item :: records_for k items
  else records_for k items.
Proof. unfold records_for. rewrite filter_cons. by case_decide. Qed.

(** The loop computes the grouping: after it, a key holds what it held
    before, followed by the records of its lines in their order. *)
Lemma add_items_grouped items devices :
  plain_keys items →
  ∃ devices',
    add_items items devices = Ok devices'
    ∧ ∀ k, devices' !! k =
           match devices !! k with
           | Some l0 => Some (l0 ++ records_for k items)
           | None => match records_for k items with
                     | [] => None
                     | l => Some l
                     end
           end.
Proof.
  intros Hplain. revert devices.
  induction Hplain as [|item items Hitem _ IH]; intros devices.
  - exists devices. split; [done|]. intros k.
    destruct (devices !! k); [by rewrite app_nil_r | done].
  - cbn [add_items]. rewrite add_item_unfold. unfold get_property. rewrite Hitem.
    destruct (devices !! item_key item) as [l|] eqn:Hkey; cbn [bind].
    + destruct (IH (<[item_key item := l ++ [item_record item]]> devices))
        as (devices' & -> & Hlookup).
      exists devices'. split; [done|]. intros k. rewrite Hlookup, records_for_cons.
      destruct (decide (item_key item = k)) as [<-|Hne].
      * rewrite lookup_insert_eq, Hkey. by rewrite <- app_assoc.
      * by rewrite lookup_insert_ne.
    + destruct (IH (<[item_key item := [item_record item]]> devices))
        as (devices' & -> & Hlookup).
      exists devices'. split; [done|]. intros k. rewrite Hlookup, records_for_cons.
      destruct (decide (item_key item = k)) as [<-|Hne].
      * by rewrite lookup_insert_eq, Hkey.
      * by rewrite lookup_insert_ne.
Qed.

(** Without a filter, a listing with plain keys gives the grouping. *)
Lemma getDevices_grouped stdout :
  plain_keys (split nl stdout) →
  ∃ devices,
    getDevices stdout None = Ok (AllDevices devices)
    ∧ ∀ k, devices !! k =
           match records_for k (split nl stdout) with
           | [] => None
           | l => Some l
           end.
Proof.
  intros Hplain. destruct (add_items_grouped _ ∅ Hplain) as (devices & Hrun & Hlookup).
  exists devices. unfold getDevices. rewrite Hrun. split; [done|].
  intros k. by rewrite Hlookup, lookup_empty.
Qed.

(** A line under an inherited name ends the loop with a [TypeError]. *)
Lemma add_items_inherited items devices :
  (∀ k, is_Some (devices !! k) → inherited k = false) →
  Exists (λ item, inherited (item_key item) = true) items →
  add_items items devices = Throw not_a_function.
Proof.
  intros Hown Hex. revert devices Hown.
  induction items as [|item items IH]; intros devices Hown; [by inversion Hex|].
  cbn [add_items]. rewrite add_item_unfold. unfold get_property.
  destruct (inherited (item_key item)) eqn:Hinh.
  - destruct (devices !! item_key item) as [l|] eqn:Hkey; [|done].
    rewrite Hown in Hinh by (by rewrite Hkey). done.
  - apply Exists_cons in Hex as [Hex|Hex]; [congruence|].
    destruct (devices !! item_key item) as [l|] eqn:Hkey; cbn [bind];
      apply IH; try done; intros k [l' Hk];
      (destruct (decide (item_key item = k)) as [<-|Hne];
       [done | rewrite lookup_insert_ne in Hk by done; by apply Hown]).
Qed.

Lemma split_five_fields f0 f1 f2 f3 f4 rest :
  bar ∉ f0 → bar ∉ f1 → bar ∉ f2 → bar ∉ f3 → bar ∉ f4 →
  (rest = [] ∨ ∃ r, rest = bar :: r) →
  ∃ more, split bar (f0 ++ bar :: f1 ++ bar :: f2 ++ bar :: f3 ++ bar :: f4 ++ rest)
          = f0 :: f1 :: f2 :: f3 :: f4 :: more.
Proof.
  intros H0 H1 H2 H3 H4 Hrest. rewrite !split_first_field by done.
  destruct Hrest as [->|[r ->]].
  - rewrite app_nil_r, split_no_sep by done. by exists [].
  - rewrite split_first_field by done. by eexists.
Qed.

End Delimited.

(** C7. A line of the delimited listing is split on [|] and every segment
    is trimmed; the record takes udid, name and state from the segments 0,
    1 and 2 and is filed under segment 4.  This holds for a line anywhere
    in a listing, and the line ["A1B2|iPhone 11|Booted|x|iOS 14.4"] alone
    gives the record with udid ["A1B2"], name ["iPhone 11"], state
    ["Booted"] under the key ["iOS 14.4"]; trimming removes the white
    space around a segment and nothing else. *)
Theorem getDevices_line :
  (∀ (stdout : jstring) (i : nat) (f0 f1 f2 f3 f4 rest : jstring),
     split nl stdout !! i =
       Some (f0 ++ bar :: f1 ++ bar :: f2 ++ bar :: f3 ++ bar :: f4 ++ rest) →
     bar ∉ f0 → bar ∉ f1 → bar ∉ f2 → bar ∉ f3 → bar ∉ f4 →
     (rest = [] ∨ ∃ r, rest = bar :: r) →
     plain_keys (split nl stdout) →
     ∃ devices l,
       getDevices stdout None = Ok (AllDevices devices)
       ∧ devices !! trim f4 = Some l
       ∧ {| udid := Some (trim f0); name := Some (trim f1);
            state := Some (trim f2); sdk := None |} ∈ l)
  ∧ getDevices (js "A1B2|iPhone 11|Booted|x|iOS 14.4") None =
    Ok (AllDevices
          {[ js "iOS 14.4" :=
               [ {| udid := Some (js "A1B2"); name := Some (js "iPhone 11");
                    state := Some (js "Booted"); sdk := None |} ] ]})
  ∧ (∀ l c r : jstring,
       Forall (λ a, is_space a = true) l → Forall (λ a, is_space a = true) r →
       (∀ a, head c = Some a → is_space a = false) →
       (∀ a, last c = Some a → is_space a = false) →
       trim (l ++ c ++ r) = c).
Proof.
  split_and!.
  - intros stdout i f0 f1 f2 f3 f4 rest Hline H0 H1 H2 H3 H4 Hrest Hplain.
    destruct (getDevices_grouped stdout Hplain) as (devices & Hrun & Hlookup).
    destruct (split_five_fields f0 f1 f2 f3 f4 rest H0 H1 H2 H3 H4 Hrest)
      as [more Hsplit].
    set (line := f0 ++ bar :: f1 ++ bar :: f2 ++ bar :: f3 ++ bar :: f4 ++ rest) in *.
    assert (item_key line = trim f4) as Hkey.
    { unfold item_key, item_segments. by rewrite Hsplit. }
    assert (item_record line =
            {| udid := Some (trim f0); name := Some (trim f1);
               state := Some (trim f2); sdk := None |}) as Hrecord.
    { unfold item_record, item_segments. by rewrite Hsplit. }
    assert (item_record line ∈ records_for (trim f4) (split nl stdout)) as Hin.
    { unfold records_for. apply list_elem_of_fmap_2, list_elem_of_filter.
      split; [done|]. by eapply list_elem_of_lookup_2. }
    exists devices, (records_for (trim f4) (split nl stdout)).
    split_and!; [done | | by rewrite <- Hrecord].
    rewrite Hlookup. destruct (records_for (trim f4) (split nl stdout)); [|done].
    by apply elem_of_nil in Hin.
  - vm_compute. reflexivity.
  - apply trim_padded.
Qed.

Lemma getDevices_line_witness :
  ∃ devices l,
    getDevices (js "A1B2 | iPhone 11 | Booted | x | iOS 14.4 | extra") None
    = Ok (AllDevices devices)
    ∧ devices !! trim (js " iOS 14.4 ") = Some l
    ∧ {| udid := Some (trim (js "A1B2 ")); name := Some (trim (js " iPhone 11 "));
         state := Some (trim (js " Booted ")); sdk := None |} ∈ l.
Proof.
  apply (proj1 getDevices_line
           (js "A1B2 | iPhone 11 | Booted | x | iOS 14.4 | extra") 0
           (js "A1B2 ") (js " iPhone 11 ") (js " Booted ") (js " x ") (js " iOS 14.4 ")
           (js "| extra")).
  - vm_compute. reflexivity.
  - apply (bool_decide_unpack _). vm_compute. exact I.
  - apply (bool_decide_unpack _). vm_compute. exact I.
  - apply (bool_decide_unpack _). vm_compute. exact I.
  - apply (bool_decide_unpack _). vm_compute. exact I.
  - apply (bool_decide_unpack _). vm_compute. exact I.
  - right. by eexists.
  - unfold plain_keys. apply (bool_decide_unpack _). vm_compute. exact I.
Defined.

(** C8, the claim as stated fails: the empty string is a filter that is
    not null and is not a key of this listing, yet the call does not fail;
    it returns the whole mapping. *)
Lemma getDevices_empty_filter_not_rejected :
  ∃ devices,
    getDevices (js "A1B2|iPhone 11|Booted|x|iOS 14.4") None = Ok (AllDevices devices)
    ∧ devices !! [] = None
    ∧ getDevices (js "A1B2|iPhone 11|Booted|x|iOS 14.4") (Some []) =
      Ok (AllDevices devices).
Proof.
  eexists. split_and!.
  - vm_compute. reflexivity.
  - vm_compute. reflexivity.
  - vm_compute. reflexivity.
Qed.

(** C8, amended. For a listing with plain keys and a filter [s] that is
    not empty and not a name inherited from [Object.prototype]: when [s]
    is not a key of the parsed mapping the call fails with the unknown-SDK
    error, and when it is a key the call returns the list of that key as it
    is in the mapping; with no filter, which an empty string also counts
    as, it returns the whole mapping. *)
Theorem getDevices_filter (stdout s : jstring) :
  s ≠ [] → inherited s = false → plain_keys (split nl stdout) →
  ∃ devices,
    getDevices stdout None = Ok (AllDevices devices)
    ∧ getDevices stdout (Some []) = Ok (AllDevices devices)
    ∧ (devices !! s = None → getDevices stdout (Some s) = Throw (unknown_sdk s))
    ∧ (∀ l, devices !! s = Some l → getDevices stdout (Some s) = Ok (SdkDevices (VArray l)))
    ∧ (∀ k, devices !! k = match records_for k (split nl stdout) with
                           | [] => None
                           | l => Some l
                           end).
Proof.
  intros Hs Hinh Hplain.
  destruct (add_items_grouped _ ∅ Hplain) as (devices & Hrun & Hlookup).
  exists devices. unfold getDevices. rewrite Hrun. cbn [bind truthy to_key].
  destruct s as [|a s]; [done|]. unfold get_property. rewrite Hinh.
  split_and!; try done.
  - by intros ->.
  - by intros l ->.
Qed.

Lemma getDevices_filter_witness :
  ∃ devices,
    getDevices (js "A1B2|iPhone 11|Booted|x|iOS 14.4") None = Ok (AllDevices devices)
    ∧ getDevices (js "A1B2|iPhone 11|Booted|x|iOS 14.4") (Some (js "iOS 14.4")) =
      Ok (SdkDevices (VArray [ {| udid := Some (js "A1B2"); name := Some (js "iPhone 11");
                                  state := Some (js "Booted"); sdk := None |} ])).
Proof.
  assert (js "iOS 14.4" ≠ []) as Hs by discriminate.
  assert (inherited (js "iOS 14.4") = false) as Hinh by (vm_compute; reflexivity).
  assert (plain_keys (split nl (js "A1B2|iPhone 11|Booted|x|iOS 14.4"))) as Hplain.
  { unfold plain_keys. apply (bool_decide_unpack _). vm_compute. exact I. }
  destruct (getDevices_filter _ _ Hs Hinh Hplain)
    as (devices & Hall & _ & _ & Hsome & Hlookup).
  exists devices. split; [done|]. apply Hsome. rewrite Hlookup. vm_compute. reflexivity.
Defined.

(** C10. The claim asks that every line gives a record, whatever its
    fifth segment.  A line filed under the name of a member of
    [Object.prototype] does not: [devices[sdk] || []] keeps the inherited
    member, which has no [push], and the call ends with a [TypeError]. *)
Theorem getDevices_inherited_key_throws :
  getDevices (js "A1B2|iPhone 11|Booted|x|constructor") None = Throw not_a_function.
Proof. vm_compute. reflexivity. Qed.

(** The loop fails exactly on such keys: a listing with plain keys always
    gives a mapping, whatever the number of fields of its lines. *)
Lemma getDevices_total_on_plain_keys stdout :
  (plain_keys (split nl stdout) → ∃ devices, getDevices stdout None = Ok (AllDevices devices))
  ∧ (¬ plain_keys (split nl stdout) → getDevices stdout None = Throw not_a_function).
Proof.
  split.
  - intros Hplain. destruct (getDevices_grouped stdout Hplain) as (devices & ? & _). eauto.
  - intros Hnot. unfold getDevices. rewrite add_items_inherited; [done| |].
    + intros k [l Hk]. by rewrite lookup_empty in Hk.
    + unfold plain_keys in Hnot. apply not_Forall_Exists in Hnot; [|apply _].
      eapply Exists_impl; [exact Hnot|]. simpl. intros item Hitem.
      by destruct (inherited (item_key item)).
Qed.

(** ** The matcher on structured input *)

Section Matcher.

Implicit Types (k : cont) (s : jstring) (c : caps).

Lemma run_Lit l k s c : run (Lit l) k (l ++ s) c = k s c.
Proof. induction l as [|a l IH]; cbn; [done|]. by rewrite Ascii.eqb_refl. Qed.

Lemma run_Lit_mismatch l k s c : starts_with l s = false → run (Lit l) k s c = None.
Proof.
  revert s. induction l as [|a l IH]; intros s Hs; [done|].
  destruct s as [|b s]; cbn in *; [done|].
  destruct (Ascii.eqb a b); [by apply IH | done].
Qed.

Lemma run_Chr_hit p k a s c : p a = true → run (Chr p) k (a :: s) c = k s c.
Proof. intros Ha. cbn. by rewrite Ha. Qed.

(** A starred character class is a greedy scan. *)
Lemma star_Chr p k n s c :
  length s ≤ n → star (run (Chr p)) [] k n s c = scan p (λ s', k s' c) s.
Proof.
  revert s. induction n as [|n IH]; intros s Hn.
  - destruct s; [done | simpl in Hn; lia].
  - destruct s as [|a s]; [done|].
    cbn [star run clear scan]. destruct (p a); [|done].
    assert ((length s <? length (a :: s)) = true) as ->.
    { apply Nat.ltb_lt. simpl. lia. }
    rewrite IH by (simpl in Hn; lia). done.
Qed.

Lemma run_Star_Chr p k s c :
  run (Star (Chr p)) k s c = scan p (λ s', k s' c) s.
Proof. cbn [run groups]. by apply star_Chr. Qed.

Lemma run_Plus_Chr p k a s c :
  p a = true → run (Plus (Chr p)) k (a :: s) c = scan p (λ s', k s' c) s.
Proof.
  intros Ha. unfold Plus. cbn [run]. rewrite Ha. apply run_Star_Chr.
Qed.

Lemma scan_stopped {R} p (k : jstring → option R) rest :
  stops p rest → scan p k rest = k rest.
Proof. intros [->|(a & r & -> & Ha)]; simpl; [done|]. by rewrite Ha. Qed.

(** When the continuation accepts the furthest point, that is the answer. *)
Lemma scan_furthest {R} p (k : jstring → option R) d rest x :
  Forall (λ a, p a = true) d → stops p rest → k rest = Some x →
  scan p k (d ++ rest) = Some x.
Proof.
  intros Hd Hrest Hk. induction Hd as [|a d Ha _ IH]; simpl.
  - by rewrite scan_stopped.
  - by rewrite Ha, IH.
Qed.

(** When it rejects every point after [d2 ++ rest], the scan of
    [d2 ++ rest] is decided at its start. *)
Lemma scan_nearest {R} p (k : jstring → option R) d2 rest :
  Forall (λ a, p a = true) d2 → stops p rest →
  (∀ i, i < length d2 → k (drop (S i) d2 ++ rest) = None) →
  scan p k (d2 ++ rest) = k (d2 ++ rest).
Proof.
  intros Hd. induction Hd as [|a d2 Ha _ IH]; intros Hrest Hk; simpl.
  - by apply scan_stopped.
  - rewrite Ha, IH; [|done|].
    + pose proof (Hk 0 ltac:(simpl; lia)) as H0.
      change (k (d2 ++ rest) = None) in H0. by rewrite H0.
    + intros i Hi. apply (Hk (S i)). simpl. lia.
Qed.

(** An accepted point stays accepted when the scan starts earlier. *)
Lemma scan_earlier {R} p (k : jstring → option R) d1 s x :
  Forall (λ a, p a = true) d1 → scan p k s = Some x → scan p k (d1 ++ s) = Some x.
Proof.
  intros Hd Hs. induction Hd as [|a d1 Ha _ IH]; simpl; [done|]. by rewrite Ha, IH.
Qed.

Lemma take_consumed (s rest : jstring) :
  take (length (s ++ rest) - length rest) (s ++ rest) = s.
Proof.
  rewrite length_app, Nat.add_sub. by rewrite take_app_length.
Qed.

Lemma cap_clear_other i gs c : i ∉ gs → cap i (clear gs c) = cap i c.
Proof.
  intros Hi. unfold clear. destruct gs as [|g gs]; [done|].
  induction c as [|[j t] c IH]; [done|]. cbn [List.filter fst].
  destruct (existsb (Nat.eqb j) (g :: gs)) eqn:Hex; cbn [negb cap].
  - apply existsb_exists in Hex as (x & Hx & Heq). apply Nat.eqb_eq in Heq. subst x.
    apply list_elem_of_In in Hx.
    destruct (Nat.eqb_spec i j) as [->|_]; [done | apply IH].
  - destruct (i =? j); [done | apply IH].
Qed.

End Matcher.

(** ** The section pattern on a rendered listing *)

Section SectionPattern.

Implicit Types (k : cont) (s rest d : jstring) (c : caps) (sec : section).

Lemma one_line_no_nl s : one_line s → nl ∉ s.
Proof.
  intros Hs Hin. unfold one_line in Hs. rewrite Forall_forall in Hs.
  by specialize (Hs nl Hin).
Qed.

Lemma device_line_nonempty d : device_line d → ∃ a d', d = a :: d' ∧ is_dot a = true ∧ one_line d'.
Proof.
  intros [Hone Hmatch]. destruct d as [|a d'].
  - exfalso. revert Hmatch. vm_compute. by intros [? ?].
  - inversion Hone; subst. eauto.
Qed.

Lemma section_end_stops rest : section_end rest → stops is_dot rest.
Proof.
  intros [->|(r & -> & _)]; [by left | right].
  exists nl, r. by split.
Qed.

Lemma lines_stop ds rest :
  section_end rest → stops is_dot (concat (render_line <$> ds) ++ rest).
Proof.
  intros Hrest. destruct ds as [|d ds]; [by apply section_end_stops|].
  right. rewrite fmap_cons. cbn [concat]. unfold render_line at 1.
  rewrite <- app_assoc. cbn [app]. eexists; eexists. by split.
Qed.

Lemma run_indent k s c : run (Rep 4 (Chr is_space)) k (indent ++ s) c = k s c.
Proof. reflexivity. Qed.

Lemma length_render_line d s : length (render_line d ++ s) = 5 + length d + length s.
Proof. unfold render_line, indent, js. cbn. rewrite length_app. lia. Qed.

(** One turn of the repeated group takes one device line. *)
Lemma run_line_group k d s2 c x :
  device_line d → stops is_dot s2 →
  k s2 (set_cap 2 (render_line d) (clear [2] c)) = Some x →
  run line_group k (render_line d ++ s2) (clear [2] c) = Some x.
Proof.
  intros Hd Hs2 Hk. destruct (device_line_nonempty d Hd) as (a & d' & -> & Ha & Hd').
  unfold line_group. cbn [run]. unfold render_line at 1. cbn [app].
  rewrite Ascii.eqb_refl. rewrite <- app_assoc. rewrite run_indent.
  cbn [app]. rewrite run_Plus_Chr by done.
  apply scan_furthest; [done | done |].
  change (nl :: (indent ++ a :: d') ++ s2) with (render_line (a :: d') ++ s2).
  by rewrite take_consumed.
Qed.

(** The starred group takes all the device lines of a section. *)
Lemma run_lines ds n rest c :
  section_end rest → Forall device_line ds →
  length (concat (render_line <$> ds) ++ rest) ≤ n →
  ∃ c', star (run line_group) [2] accept n (concat (render_line <$> ds) ++ rest) c
        = Some (rest, c')
        ∧ cap 1 c' = cap 1 c.
Proof.
  intros Hrest Hds. revert n c.
  induction Hds as [|d ds Hd _ IH]; intros n c.
  - intros _. cbn [fmap list_fmap concat app]. exists c. split; [|done].
    destruct n as [|n]; [done|]. cbn [star].
    assert (∀ k, run line_group k rest (clear [2] c) = None) as ->; [|done].
    intros k. destruct Hrest as [->|(r & -> & [->|(a & r' & -> & Ha)])];
      [reflexivity | reflexivity |].
    unfold line_group. cbn [run Rep]. rewrite Ascii.eqb_refl. by rewrite Ha.
  - rewrite fmap_cons. cbn [concat]. rewrite <- app_assoc.
    set (s2 := concat (render_line <$> ds) ++ rest) in *.
    rewrite length_render_line. intros Hn.
    destruct n as [|n]; [lia|]. cbn [star].
    assert ((length s2 <? length (render_line d ++ s2)) = true) as Hlt.
    { apply Nat.ltb_lt. rewrite length_render_line. lia. }
    destruct (IH n (set_cap 2 (render_line d) (clear [2] c))) as (c' & Hstar & Hcap);
      [lia|].
    exists c'. split.
    + erewrite run_line_group; [done | done | by apply lines_stop |].
      cbv beta. by rewrite Hlt.
    + rewrite Hcap. cbn [set_cap cap Nat.eqb]. apply cap_clear_other.
      rewrite list_elem_of_singleton. lia.
Qed.

(** The section pattern, tried at the start of a section, matches the whole
    section and captures the text between [-- iOS ] and [ --]. *)
Lemma run_section sec rest :
  well_formed sec → section_end rest →
  ∃ c', run deviceSectionRe accept (render_section sec ++ rest) [] = Some (rest, c')
        ∧ cap 1 c' = Some sec.1.
Proof.
  destruct sec as [v ds]. intros (Hv & Hone & Hds) Hrest. cbn [fst snd] in *.
  destruct v as [|a v]; [done|]. inversion Hone as [|? ? Ha Hv']; subst.
  unfold render_section. cbn [fst snd]. rewrite <- !app_assoc.
  pose proof (lines_stop ds rest Hrest) as Htail.
  destruct (run_lines ds (length (concat (render_line <$> ds) ++ rest)) rest
              [(1, a :: v)] Hrest Hds) as (c' & Hstar & Hcap); [done|].
  remember (concat (render_line <$> ds) ++ rest) as tail eqn:Etail. clear Etail.
  assert (starts_with (js " --") tail = false) as Hmis.
  { destruct Htail as [->|(b & r & -> & Hb)]; [done|].
    unfold js. cbn [list_ascii_of_string starts_with].
    destruct (Ascii.eqb_spec " "%char b) as [<-|]; [discriminate Hb | done]. }
  exists c'. split; [|by rewrite Hcap].
  unfold deviceSectionRe. cbn [run]. rewrite run_Lit.
  cbn [app]. rewrite run_Plus_Chr by done.
  apply scan_earlier; [done|].
  rewrite scan_nearest.
  - change (a :: v ++ js " --" ++ tail) with ((a :: v) ++ js " --" ++ tail).
    rewrite take_consumed. rewrite run_Lit. exact Hstar.
  - by repeat constructor.
  - done.
  - intros i Hi. apply run_Lit_mismatch.
    destruct i as [|[|[|i]]]; [reflexivity | reflexivity | exact Hmis |].
    unfold js in Hi. simpl in Hi. lia.
Qed.

End SectionPattern.

(** ** Collecting the sections *)

Section Collecting.

Implicit Types (s rest pre : jstring) (c : caps) (sec : section) (secs : list section).

Lemma search_unfold r s idx :
  search r s idx =
  match run r accept s [] with
  | Some (rest, c) =>
      Some ({| m_full := take (length s - length rest) s; m_caps := c |},
            idx + (length s - length rest))
  | None => match s with
            | [] => None
            | _ :: s' => search r s' (S idx)
            end
  end.
Proof. by destruct s. Qed.

Lemma search_hit r s rest c idx :
  run r accept (s ++ rest) [] = Some (rest, c) →
  search r (s ++ rest) idx = Some ({| m_full := s; m_caps := c |}, idx + length s).
Proof.
  intros Hrun. rewrite search_unfold, Hrun, take_consumed.
  by rewrite length_app, Nat.add_sub.
Qed.

Lemma exec_global_at r pre s :
  exec_global r (pre ++ s) (length pre) = search r s (length pre).
Proof.
  unfold exec_global.
  assert ((length (pre ++ s) <? length pre) = false) as ->.
  { apply Nat.ltb_ge. rewrite length_app. lia. }
  by rewrite drop_app_length.
Qed.

Lemma next_sections_end secs post :
  section_end post →
  section_end (concat ((λ sec, nl :: render_section sec) <$> secs) ++ post).
Proof.
  intros Hpost. destruct secs as [|sec secs]; [done | right].
  rewrite fmap_cons. cbn [concat]. unfold render_section, js.
  cbn [list_ascii_of_string app]. eexists. split; [done|]. right. by eexists _, _.
Qed.

Lemma length_next_sections secs :
  length secs ≤ length (concat ((λ sec, nl :: render_section sec) <$> secs)).
Proof.
  induction secs as [|sec secs IH]; [done|].
  rewrite fmap_cons. cbn [concat]. rewrite length_app. simpl. lia.
Qed.

Lemma search_none r s idx :
  (∀ t, t `suffix_of` s → run r accept t [] = None) → search r s idx = None.
Proof.
  revert idx. induction s as [|a s IH]; intros idx Hs; rewrite search_unfold.
  - by rewrite Hs.
  - rewrite Hs by done. apply IH. intros t Ht. by apply Hs, suffix_cons_r.
Qed.

(** The search passes over a text none of whose positions starts a match. *)
Lemma search_skip r pre s idx :
  (∀ t, t ≠ [] → t `suffix_of` pre → run r accept (t ++ s) [] = None) →
  search r (pre ++ s) idx = search r s (idx + length pre).
Proof.
  revert idx. induction pre as [|a pre IH]; intros idx Hpre.
  - cbn [app length]. by rewrite Nat.add_0_r.
  - pose proof (Hpre (a :: pre) ltac:(done) ltac:(done)) as Hhere.
    cbn [app] in *. rewrite search_unfold, Hhere, IH.
    + cbn [length]. f_equal. lia.
    + intros t Hne Ht. apply Hpre; [done | by apply suffix_cons_r].
Qed.

Lemma includes_suffix pat s t :
  includes pat s = false → t `suffix_of` s → starts_with pat t = false.
Proof.
  intros Hs [k ->]. induction k as [|a k IH].
  - destruct t; cbn [app includes] in Hs; by apply orb_false_iff in Hs as [? _].
  - apply IH. cbn [app includes] in Hs. by apply orb_false_iff in Hs as [_ ?].
Qed.

Lemma starts_with_app_inv pat t s :
  starts_with pat (t ++ s) = true →
  starts_with pat t = true ∨ ∃ p, pat = t ++ p.
Proof.
  revert t. induction pat as [|a pat IH]; intros t Ht; [by left|].
  destruct t as [|b t]; [right; by eexists|].
  cbn [app starts_with] in *. apply andb_true_iff in Ht as [Hab Ht].
  apply Ascii.eqb_eq in Hab as <-. rewrite Ascii.eqb_refl.
  destruct (IH t Ht) as [?|[p ->]]; [by left | right; by eexists].
Qed.

(** No match starts in the preamble. *)
Lemma preamble_no_match pre s t :
  preamble pre → t ≠ [] → t `suffix_of` pre →
  run deviceSectionRe accept (t ++ s) [] = None.
Proof.
  intros [Hshape Hinc] Hne Ht. apply (run_Lit_mismatch header_start).
  destruct (starts_with header_start (t ++ s)) eqn:Hstart; [exfalso|done].
  apply starts_with_app_inv in Hstart as [Hstart|[p Hp]].
  - by rewrite (includes_suffix _ _ _ Hinc Ht) in Hstart.
  - assert (nl ∈ t) as Hnl.
    { destruct Hshape as [->|[q ->]].
      - apply suffix_nil_inv in Ht. done.
      - destruct Ht as [k Hk].
        destruct (rev t) as [|x u] eqn:Hrev.
        { apply (f_equal (@rev _)) in Hrev. rewrite rev_involutive in Hrev. done. }
        apply (f_equal (@rev _)) in Hrev. rewrite rev_involutive in Hrev.
        cbn [rev] in Hrev. subst t. rewrite app_assoc in Hk.
        apply app_inj_tail in Hk as [_ <-]. rewrite elem_of_app. right. by left. }
    assert (nl ∈ header_start) as Hin by (rewrite Hp, elem_of_app; by left).
    revert Hin. by apply (bool_decide_unpack _).
Qed.

(** No match starts in the postamble. *)
Lemma postamble_no_match post idx :
  includes header_start post = false → search deviceSectionRe post idx = None.
Proof.
  intros Hinc. apply search_none. intros t Ht.
  apply (run_Lit_mismatch header_start). by eapply includes_suffix.
Qed.

Lemma exec_loop_S fuel r s lastIndex :
  exec_loop (S fuel) r s lastIndex =
  match exec_global r s lastIndex with
  | None => Some []
  | Some (m, lastIndex') => cons m <$> exec_loop fuel r s lastIndex'
  end.
Proof. reflexivity. Qed.

(** From the end of a section on, the loop collects the sections that
    follow, one match each, and then stops. *)
Lemma exec_loop_sections secs pre post fuel :
  Forall well_formed secs → postamble post → length secs < fuel →
  ∃ ms,
    exec_loop fuel deviceSectionRe
      (pre ++ concat ((λ sec, nl :: render_section sec) <$> secs) ++ post)
      (length pre) = Some ms
    ∧ Forall2 section_match secs ms.
Proof.
  intros Hsecs [Hend Hpost]. revert pre fuel.
  induction Hsecs as [|sec secs Hsec _ IH]; intros pre fuel Hfuel.
  - destruct fuel as [|fuel]; [lia|]. exists []. split; [|constructor].
    cbn [fmap list_fmap concat app].
    by rewrite exec_loop_S, exec_global_at, postamble_no_match.
  - destruct fuel as [|fuel]; [simpl in Hfuel; lia|].
    rewrite fmap_cons. cbn [concat]. rewrite exec_loop_S, exec_global_at.
    rewrite <- app_assoc.
    set (suf := concat ((λ sec, nl :: render_section sec) <$> secs) ++ post).
    destruct (run_section sec suf Hsec (next_sections_end secs post Hend))
      as (c' & Hrun & Hcap).
    cbn [app]. rewrite search_unfold.
    assert (run deviceSectionRe accept (nl :: render_section sec ++ suf) [] = None)
      as -> by reflexivity.
    rewrite (search_hit _ _ _ _ _ Hrun).
    destruct (IH (pre ++ nl :: render_section sec) fuel) as (ms & Hloop & Hms).
    { simpl in Hfuel. lia. }
    rewrite <- app_assoc in Hloop. cbn [app] in Hloop.
    rewrite length_app in Hloop. cbn [length] in Hloop.
    replace (S (length pre) + length (render_section sec))
      with (length pre + S (length (render_section sec))) by lia.
    fold suf in Hloop. rewrite Hloop. cbn [fmap option_fmap option_map].
    eexists. split; [done|]. by constructor.
Qed.

(** On a rendered listing between a preamble and a postamble the loop
    finds the sections, in their order. *)
Lemma exec_loop_listing pre sec secs post :
  preamble pre → postamble post → Forall well_formed (sec :: secs) →
  ∃ ms,
    exec_loop (length (pre ++ render_listing (sec :: secs) ++ post) + 2)
      deviceSectionRe (pre ++ render_listing (sec :: secs) ++ post) 0 = Some ms
    ∧ Forall2 section_match (sec :: secs) ms.
Proof.
  intros Hpre Hpost Hall. inversion Hall as [|? ? Hsec Hsecs]; subst.
  cbn [render_listing]. rewrite Nat.add_comm. rewrite <- app_assoc.
  set (suf := concat ((λ sec, nl :: render_section sec) <$> secs) ++ post).
  change (2 + length (pre ++ render_section sec ++ suf))
    with (S (S (length (pre ++ render_section sec ++ suf)))).
  rewrite exec_loop_S.
  destruct (run_section sec suf Hsec (next_sections_end secs post (proj1 Hpost)))
    as (c' & Hrun & Hcap).
  change (exec_global deviceSectionRe (pre ++ render_section sec ++ suf) 0)
    with (search deviceSectionRe (pre ++ render_section sec ++ suf) 0).
  rewrite search_skip by (intros t Hne Ht; by apply (preamble_no_match pre)).
  rewrite (search_hit _ _ _ _ _ Hrun). cbn [Nat.add].
  destruct (exec_loop_sections secs (pre ++ render_section sec) post
              (S (length (pre ++ render_section sec ++ suf))) Hsecs Hpost)
    as (ms & Hloop & Hms).
  { pose proof (length_next_sections secs) as Hlen.
    unfold suf. rewrite !length_app. lia. }
  rewrite <- app_assoc in Hloop. fold suf in Hloop.
  rewrite (length_app pre (render_section sec)) in Hloop.
  rewrite Hloop. cbn [fmap option_fmap option_map].
  eexists. split; [done|]. by constructor.
Qed.

End Collecting.

(** ** The collecting loop comes to an end *)

Section Termination.

Implicit Types (k : cont) (s : jstring) (c : caps).

Lemma star_forward body gs n : forward body → forward (λ k, star body gs k n).
Proof.
  intros Hbody. induction n as [|n IH]; intros k s c x Hx.
  - exists s, c. by split.
  - cbn [star] in Hx.
    destruct (body _ s (clear gs c)) as [y|] eqn:Hy.
    + injection Hx as ->. apply Hbody in Hy as (s1 & c1 & Hlen & Hk).
      destruct (length s1 <? length s); [|done].
      apply IH in Hk as (s2 & c2 & Hlen2 & Hk). exists s2, c2. split; [lia | done].
    + exists s, c. by split.
Qed.

Lemma run_forward r : forward (run r).
Proof.
  induction r as [|p|r1 IH1 r2 IH2|i r IH|r IH|r IH]; intros k s c x Hx; cbn [run] in Hx.
  - exists s, c. by split.
  - destruct s as [|a s]; [done|]. destruct (p a); [|done].
    exists s, c. split; [simpl; lia | done].
  - apply IH1 in Hx as (s1 & c1 & Hlen1 & Hx).
    apply IH2 in Hx as (s2 & c2 & Hlen2 & Hx). exists s2, c2. split; [lia | done].
  - apply IH in Hx as (s1 & c1 & Hlen1 & Hx). eauto.
  - destruct (run r _ s (clear (groups r) c)) as [y|] eqn:Hy.
    + injection Hx as ->. apply IH in Hy as (s1 & c1 & Hlen & Hk).
      destruct (length s1 <? length s); [|done]. eauto.
    + exists s, c. by split.
  - by apply (star_forward (run r) (groups r) (length s) IH) in Hx.
Qed.

Lemma run_Lit_consumes a l r s rest c :
  run (Seq (Lit (a :: l)) r) accept s [] = Some (rest, c) → length rest < length s.
Proof.
  cbn [Lit run]. destruct s as [|b s]; [done|]. destruct (Ascii.eqb a b); [|done].
  intros Hrun. change (run (Seq (Lit l) r) accept s [] = Some (rest, c)) in Hrun.
  apply run_forward in Hrun as (s1 & c1 & Hlen & Hacc).
  injection Hacc as -> ->. simpl. lia.
Qed.

(** A match of the section pattern takes at least one character. *)
Lemma section_match_consumes s rest c :
  run deviceSectionRe accept s [] = Some (rest, c) → length rest < length s.
Proof. apply (run_Lit_consumes "-" (js "- iOS ")). Qed.

Lemma search_progress s idx m e :
  search deviceSectionRe s idx = Some (m, e) → idx < e ≤ idx + length s.
Proof.
  revert idx. induction s as [|a s IH]; intros idx; rewrite search_unfold.
  - destruct (run deviceSectionRe accept [] []) as [[rest c]|] eqn:Hrun; [|done].
    apply section_match_consumes in Hrun. simpl in Hrun. lia.
  - destruct (run deviceSectionRe accept (a :: s) []) as [[rest c]|] eqn:Hrun.
    + apply section_match_consumes in Hrun. intros [= <- <-].
      cbn [length] in *. lia.
    + intros Hs. apply IH in Hs. cbn [length]. lia.
Qed.

Lemma exec_global_progress s lastIndex m e :
  exec_global deviceSectionRe s lastIndex = Some (m, e) → lastIndex < e ≤ length s.
Proof.
  unfold exec_global. destruct (Nat.ltb_spec (length s) lastIndex); [done|].
  intros Hs. apply search_progress in Hs. rewrite length_drop in Hs. lia.
Qed.

Lemma exec_loop_terminates fuel s lastIndex :
  length s - lastIndex < fuel → is_Some (exec_loop fuel deviceSectionRe s lastIndex).
Proof.
  revert lastIndex. induction fuel as [|fuel IH]; intros lastIndex Hfuel; [lia|].
  rewrite exec_loop_S.
  destruct (exec_global deviceSectionRe s lastIndex) as [[m e]|] eqn:Hexec; [|done].
  apply exec_global_progress in Hexec.
  destruct (IH e) as [ms ->]; [lia | done].
Qed.

(** X1. The collecting loop of [getDevicesByParsing] comes to an end on
    every text: a match of the section pattern takes at least one
    character, so the [length stdout + 2] calls of [exec] that the model
    allows are enough, and the parser always completes, with a mapping or
    with an error. *)
Lemma getDevicesByParsing_terminates stdout : is_Some (getDevicesByParsing stdout).
Proof.
  unfold getDevicesByParsing.
  destruct (exec_loop_terminates (length stdout + 2) stdout 0) as [ms ->]; [lia | done].
Qed.

End Termination.

(** ** Filling the mapping *)

Section Filling.

Implicit Types (sec : section) (secs : list section) (devices : object).

Lemma split_rendered_lines (sep : ascii) (f : jstring → jstring) x ds :
  sep ∉ x → Forall (λ d, sep ∉ f d) ds →
  split sep (x ++ concat ((λ d, sep :: f d) <$> ds)) = x :: (f <$> ds).
Proof.
  intros Hx Hds. revert x Hx.
  induction Hds as [|d ds Hd _ IH]; intros x Hx.
  - cbn [fmap list_fmap concat]. by rewrite app_nil_r, split_no_sep.
  - rewrite !fmap_cons. cbn [concat app].
    rewrite split_first_field by done. by rewrite IH.
Qed.

(** The lines of a section match, without the header. *)
Lemma section_lines_rendered sec m :
  well_formed sec → section_match sec m →
  section_lines m = (λ d, indent ++ d) <$> sec.2.
Proof.
  destruct sec as [v ds]. intros (_ & Hv & Hds) [Hfull _]. cbn [fst snd] in *.
  unfold section_lines. rewrite Hfull. unfold render_section. cbn [fst snd].
  rewrite !app_assoc.
  rewrite (split_rendered_lines nl (λ d, indent ++ d)); [done| |].
  - rewrite !not_elem_of_app. split_and!; [by apply (bool_decide_unpack _) | |
                                           by apply (bool_decide_unpack _)].
    by apply one_line_no_nl.
  - eapply Forall_impl; [exact Hds|]. intros d [Hd _]. cbv beta.
    rewrite not_elem_of_app. split; [by apply (bool_decide_unpack _)|].
    by apply one_line_no_nl.
Qed.

(** The inner loop appends the records of the lines to the list of the
    section. *)
Lemma add_lines_section v ds devices l0 :
  v ≠ proto_key → own devices !! v = Some l0 → Forall device_line ds →
  add_lines (Some v) ((λ d, indent ++ d) <$> ds) devices =
  Ok {| own := <[v := l0 ++ ((λ d, device_of (Some v) (indent ++ d)) <$> ds)]> (own devices);
        proto := proto devices |}.
Proof.
  intros Hv Hown Hds. revert devices l0 Hown.
  induction Hds as [|d ds Hd _ IH]; intros devices l0 Hown.
  - cbn [fmap list_fmap add_lines]. rewrite app_nil_r, insert_id by done.
    by destruct devices.
  - rewrite !fmap_cons. cbn [add_lines].
    destruct Hd as [_ [lineMatch Hmatch]]. rewrite Hmatch.
    unfold push_device. cbn [to_key]. rewrite bool_decide_eq_false_2 by done.
    rewrite Hown. cbn [bind].
    rewrite (IH _ (l0 ++ [device_of (Some v) (indent ++ d)])).
    + cbn [own proto]. rewrite insert_insert_eq, <- app_assoc. done.
    + cbn [own]. rewrite lookup_insert_eq. unfold device_of, line_caps.
      by rewrite Hmatch.
Qed.

(** The outer loop stores, section after section, the records of the
    section under its key. *)
Lemma add_sections_fold secs ms devices :
  Forall2 section_match secs ms → Forall well_formed secs → proto_key ∉ secs.*1 →
  add_sections ms devices =
  Ok {| own := foldl (λ m sec, <[sec.1 := section_records sec]> m) (own devices) secs;
        proto := proto devices |}.
Proof.
  intros Hms. revert devices.
  induction Hms as [|sec m secs ms Hm _ IH]; intros devices Hwf Hkeys.
  - by destruct devices.
  - inversion Hwf as [|? ? Hsec Hsecs]; subst.
    rewrite fmap_cons in Hkeys. apply not_elem_of_cons in Hkeys as [Hne Hkeys].
    cbn [add_sections]. rewrite (section_lines_rendered sec m Hsec Hm).
    destruct Hm as [_ ->]. cbn [to_key].
    unfold assign_empty. rewrite bool_decide_eq_false_2 by done.
    rewrite (add_lines_section sec.1 sec.2 _ []); [|done| |by destruct Hsec as (_ & _ & ?)].
    2:{ cbn [own]. by rewrite lookup_insert_eq. }
    cbn [bind own proto]. rewrite IH by done.
    cbn [own proto foldl app]. by rewrite insert_insert_eq.
Qed.

Lemma foldl_insert_other secs (m : gmap jstring (list DeviceRecord)) k :
  k ∉ secs.*1 →
  foldl (λ m sec, <[sec.1 := section_records sec]> m) m secs !! k = m !! k.
Proof.
  revert m. induction secs as [|sec secs IH]; intros m Hk; [done|].
  rewrite fmap_cons in Hk. apply not_elem_of_cons in Hk as [Hne Hk].
  cbn [foldl]. rewrite IH by done. by rewrite lookup_insert_ne.
Qed.

Lemma foldl_insert_lookup secs (m : gmap jstring (list DeviceRecord)) sec :
  NoDup secs.*1 → sec ∈ secs →
  foldl (λ m sec, <[sec.1 := section_records sec]> m) m secs !! sec.1
  = Some (section_records sec).
Proof.
  revert m. induction secs as [|sec' secs IH]; intros m Hnd Hin.
  { by apply elem_of_nil in Hin. }
  rewrite fmap_cons in Hnd. apply NoDup_cons in Hnd as [Hfresh Hnd].
  cbn [foldl]. apply elem_of_cons in Hin as [->|Hin].
  - rewrite foldl_insert_other by done. by rewrite lookup_insert_eq.
  - by apply IH.
Qed.

Lemma foldl_insert_size secs (m : gmap jstring (list DeviceRecord)) :
  NoDup secs.*1 → (∀ k, k ∈ secs.*1 → m !! k = None) →
  size (foldl (λ m sec, <[sec.1 := section_records sec]> m) m secs)
  = size m + length secs.
Proof.
  revert m. induction secs as [|sec secs IH]; intros m Hnd Hfresh.
  { cbn. lia. }
  rewrite fmap_cons in Hnd, Hfresh. apply NoDup_cons in Hnd as [Hsec Hnd].
  cbn [foldl length]. rewrite IH; [|done|].
  - rewrite map_size_insert_None; [lia|]. apply Hfresh. by left.
  - intros k Hk. rewrite lookup_insert_ne.
    + apply Hfresh. by right.
    + intros <-. done.
Qed.

End Filling.

(** ** The device-line pattern on a line written out *)

Section DeviceLines.

Implicit Types (k : cont) (s t : jstring) (c : caps).

Lemma word_char a :
  is_word a = true →
  is_space a = false ∧ is_dot a = true
  ∧ a ≠ "-"%char ∧ a ≠ "("%char ∧ a ≠ ")"%char ∧ a ≠ " "%char.
Proof.
  destruct a as [[] [] [] [] [] [] [] []]; vm_compute; intros H;
    first [discriminate H | by split_and!].
Qed.

Lemma space_char a :
  is_space a = true →
  is_word a = false ∧ a ≠ "-"%char ∧ a ≠ "("%char ∧ a ≠ ")"%char.
Proof.
  destruct a as [[] [] [] [] [] [] [] []]; vm_compute; intros H;
    first [discriminate H | by split_and!].
Qed.

Lemma nonspace_char a : is_space a = false → is_dot a = true.
Proof.
  destruct a as [[] [] [] [] [] [] [] []]; vm_compute; intros H;
    first [discriminate H | done].
Qed.

(** A scan whose continuation rejects every point fails. *)
Lemma scan_none {R} p (k : jstring → option R) s :
  (∀ t, t `suffix_of` s → k t = None) → scan p k s = None.
Proof.
  induction s as [|a s IH]; intros Hk; simpl.
  - by apply Hk.
  - rewrite IH; [|intros t Ht; by apply Hk, suffix_cons_r].
    rewrite Hk by done. by destruct (p a).
Qed.

(** When the continuation rejects every point after the first character,
    the scan is decided before it. *)
Lemma scan_first {R} p (k : jstring → option R) a s :
  (∀ t, t `suffix_of` s → k t = None) → scan p k (a :: s) = k (a :: s).
Proof. intros Hk. simpl. rewrite scan_none by done. by destruct (p a). Qed.

Lemma starts_with_head pat a b s :
  a ≠ b → starts_with (a :: pat) (b :: s) = false.
Proof. intros Hne. simpl. by destruct (Ascii.eqb_spec a b). Qed.

Lemma word_nonempty w : word w → ∃ a w', w = a :: w' ∧ is_word a = true
                                        ∧ Forall (λ a, is_word a = true) w'.
Proof. intros [Hne Hw]. destruct w as [|a w']; [done|]. inversion Hw; subst. eauto. Qed.

Lemma lineRe_groups :
  lineRe = Seq nameGroup (Seq (Lit (js " ("))
          (Seq udidGroup (Seq (Lit (js ") (")) (Seq stateGroup (Lit (js ")")))))).
Proof. reflexivity. Qed.

Lemma stops_close p : p ")"%char = false → stops p (js ")").
Proof. intros Hp. right. by exists ")"%char, []. Qed.

(** The state group and the closing parenthesis, at the state. *)
Lemma run_state state c :
  state_text state →
  run (Seq stateGroup (Lit (js ")"))) accept (state ++ js ")") c
  = Some ([], (3, state) :: c).
Proof.
  intros Hstate. unfold stateGroup. cbn [run].
  set (kG := λ s' c', run (Lit (js ")")) accept s'
                        (set_cap 3 (take (length (state ++ js ")") - length s')
                                      (state ++ js ")")) c')).
  assert (kG (js ")") c = Some ([], (3, state) :: c)) as HkG.
  { unfold kG. by rewrite take_consumed. }
  clearbody kG.
  set (K := λ s c0, match match s with
                          | [] => None
                          | a :: s' =>
                              if is_space a
                              then if length s' <? length s
                                   then run (Plus (Chr is_word)) kG s'
                                          (clear (groups (Chr is_space)) c0)
                                   else None
                              else None
                          end with
                    | Some x => Some x
                    | None => run (Plus (Chr is_word)) kG s c0
                    end).
  destruct Hstate as [(w & z & -> & Hw & Hz)|(w1 & sp & w2 & -> & Hw1 & Hw2 & Hsp & Hdot)].
  - destruct (word_nonempty w Hw) as (a & w' & -> & Ha & Hw').
    destruct (word_char z Hz) as (Hzs & _).
    rewrite <- app_assoc. cbn [app]. rewrite run_Plus_Chr by done.
    apply scan_earlier; [done|].
    rewrite (scan_nearest is_word _ [z] (js ")"));
      [| by repeat constructor | by apply stops_close |].
    + unfold K. cbn [app]. rewrite Hzs. rewrite run_Plus_Chr by done.
      by rewrite scan_stopped by (by apply stops_close).
    + intros [|i] Hi; [reflexivity | simpl in Hi; lia].
  - destruct (word_nonempty w1 Hw1) as (a & w1' & -> & Ha & Hw1').
    destruct (word_nonempty w2 Hw2) as (b & w2' & -> & Hb & Hw2').
    destruct (space_char sp Hsp) as (Hspw & _).
    rewrite <- app_assoc. cbn [app]. rewrite run_Plus_Chr by done.
    apply scan_furthest; [done | right; by eexists _, _ |].
    unfold K. rewrite Hsp.
    assert ((length (b :: w2' ++ js ")") <? length (sp :: b :: w2' ++ js ")")) = true)
      as ->.
    { apply Nat.ltb_lt. simpl. lia. }
    cbn [groups clear]. rewrite run_Plus_Chr by done.
    by rewrite (scan_furthest _ _ _ _ _ Hw2' (stops_close _ eq_refl) HkG).
Qed.

Lemma run_Seq r1 r2 k s c : run (Seq r1 r2) k s c = run r1 (run r2 k) s c.
Proof. reflexivity. Qed.

Lemma run_Group i r k s c :
  run (Group i r) k s c =
  run r (λ s' c', k s' (set_cap i (take (length s - length s') s) c')) s c.
Proof. reflexivity. Qed.

Lemma run_Plus_Chr_miss p k s c :
  (∀ a s', s = a :: s' → p a = false) → run (Plus (Chr p)) k s c = None.
Proof.
  intros Hs. unfold Plus. cbn [run]. destruct s as [|a s']; [done|].
  by rewrite (Hs a s').
Qed.

Lemma suffix_app_head {A} (l l1 l2 : list A) :
  l `suffix_of` l1 ++ l2 → (∃ x l', l = x :: l' ∧ x ∈ l1) ∨ l `suffix_of` l2.
Proof.
  induction l1 as [|y l1 IH]; intros Hl; [by right|].
  destruct l as [|x l']; [right; apply suffix_nil|].
  cbn [app] in Hl. apply suffix_cons_inv in Hl as [[= -> ->]|Hl].
  - left. eexists _, _. split; [done | by left].
  - destruct (IH Hl) as [(z & l'' & [= -> ->] & Hz)|Hr]; [|by right].
    left. eexists _, _. split; [done | by right].
Qed.

Lemma starts_with_inv pat t : starts_with pat t = true → ∃ t', t = pat ++ t'.
Proof.
  revert t. induction pat as [|a pat IH]; intros t Ht; [by exists t|].
  destruct t as [|b t]; [done|]. cbn [starts_with] in Ht.
  apply andb_true_iff in Ht as [Hab Ht]. apply Ascii.eqb_eq in Hab as ->.
  destruct (IH t Ht) as [t' ->]. by exists t'.
Qed.

(** Where no parenthesis opens, neither [ (] nor [) (] starts. *)
Lemma no_open s t :
  "("%char ∉ s → t `suffix_of` s →
  starts_with (js " (") t = false ∧ starts_with (js ") (") t = false.
Proof.
  intros Hs Ht. split.
  - destruct (starts_with (js " (") t) eqn:E; [|done].
    apply starts_with_inv in E as [t' ->]. exfalso. apply Hs.
    eapply elem_of_suffix; [|exact Ht]. by right; left.
  - destruct (starts_with (js ") (") t) eqn:E; [|done].
    apply starts_with_inv in E as [t' ->]. exfalso. apply Hs.
    eapply elem_of_suffix; [|exact Ht]. by right; right; left.
Qed.

Lemma state_chars state :
  state_text state →
  Forall (λ a, is_dot a = true ∧ a ≠ "-"%char ∧ a ≠ "("%char) state.
Proof.
  assert (∀ w, Forall (λ a, is_word a = true) w →
               Forall (λ a, is_dot a = true ∧ a ≠ "-"%char ∧ a ≠ "("%char) w) as Hword.
  { intros w Hw. eapply Forall_impl; [exact Hw|]. intros a Ha.
    by destruct (word_char a Ha) as (_ & ? & ? & ? & _). }
  intros [(w & z & -> & [_ Hw] & Hz)|(w1 & sp & w2 & -> & [_ Hw1] & [_ Hw2] & Hsp & Hdot)].
  - apply Forall_app. split; [by apply Hword|]. apply Hword. by repeat constructor.
  - apply Forall_app. split; [by apply Hword|]. constructor; [|by apply Hword].
    by destruct (space_char sp Hsp) as (_ & ? & ? & _).
Qed.

Lemma state_head state :
  state_text state → ∃ a st, state = a :: st ∧ is_word a = true.
Proof.
  intros [(w & z & -> & Hw & Hz)|(w1 & sp & w2 & -> & Hw1 & Hw2 & Hsp & Hdot)].
  - destruct (word_nonempty w Hw) as (a & w' & -> & Ha & _). by eexists _, _.
  - destruct (word_nonempty w1 Hw1) as (a & w' & -> & Ha & _). by eexists _, _.
Qed.

Lemma udid_chars udid :
  udid_text udid → Forall (λ a, is_dot a = true ∧ a ≠ " "%char) udid.
Proof.
  assert (∀ a, is_word a = true ∨ a = "-"%char → is_dot a = true ∧ a ≠ " "%char) as Hchar.
  { intros a [Ha| ->]; [|done]. by destruct (word_char a Ha) as (_ & ? & _ & _ & _ & ?). }
  intros (w & middle & z & -> & [_ Hw] & _ & Hmiddle & Hz).
  apply Forall_app. split.
  - eapply Forall_impl; [exact Hw|]. intros a Ha. apply Hchar. by left.
  - constructor; [done|]. apply Forall_app. split.
    + eapply Forall_impl; [exact Hmiddle|]. done.
    + repeat constructor; by apply Hchar; left.
Qed.

Lemma closed_state_no_open state : state_text state → "("%char ∉ state ++ js ")".
Proof.
  intros Hstate Hin. apply elem_of_app in Hin as [Hin|Hin].
  - pose proof (state_chars state Hstate) as Hchars. rewrite Forall_forall in Hchars.
    by destruct (Hchars _ Hin) as (_ & _ & ?).
  - by apply list_elem_of_singleton in Hin.
Qed.

(** After the state, [\w+] followed by [) (] finds nothing. *)
Lemma word_then_close_rejects state k t c :
  state_text state → t `suffix_of` state ++ js ")" →
  (∀ s' c', starts_with (js ") (") s' = false → k s' c' = None) →
  run (Plus (Chr is_word)) k t c = None.
Proof.
  intros Hstate Ht Hk. destruct t as [|x t']; [done|].
  destruct (is_word x) eqn:Hx; [|by apply run_Plus_Chr_miss; intros ? ? [= <- _]].
  rewrite run_Plus_Chr by done. apply scan_none. intros t'' Ht''.
  apply Hk.
  apply (no_open (state ++ js ")")); [by apply closed_state_no_open|].
  etrans; [exact Ht''|]. etrans; [|exact Ht]. by apply suffix_cons_r.
Qed.

(** The udid group, the separator and the state group, at the udid. *)
Lemma run_udid udid state c :
  udid_text udid → state_text state →
  run (Seq udidGroup (Seq (Lit (js ") (")) (Seq stateGroup (Lit (js ")")))))
    accept (udid ++ js ") (" ++ state ++ js ")") c
  = Some ([], (3, state) :: (2, udid) :: c).
Proof.
  intros Hudid Hstate. pose proof (udid_chars udid Hudid) as Hchars.
  rewrite run_Seq. unfold udidGroup. rewrite run_Group.
  set (T := js ") (" ++ state ++ js ")").
  set (kG := λ s' c', run (Seq (Lit (js ") (")) (Seq stateGroup (Lit (js ")")))) accept s'
                        (set_cap 2 (take (length (udid ++ T) - length s') (udid ++ T)) c')).
  assert (kG T c = Some ([], (3, state) :: (2, udid) :: c)) as HkG.
  { unfold kG. rewrite take_consumed, run_Seq. unfold T. rewrite run_Lit.
    by apply run_state. }
  assert (∀ t, t `suffix_of` T → run (Plus (Chr is_word)) kG t c = None) as Hrej.
  { intros t Ht. destruct t as [|x t']; [done|].
    unfold T, js in Ht. cbn [list_ascii_of_string app] in Ht.
    apply suffix_cons_inv in Ht as [[= -> _]|Ht]; [done|].
    apply suffix_cons_inv in Ht as [[= -> _]|Ht]; [done|].
    apply suffix_cons_inv in Ht as [[= -> _]|Ht]; [done|].
    apply (word_then_close_rejects state); [done | done |].
    intros s' c' Hs'. unfold kG. rewrite run_Seq. by apply run_Lit_mismatch. }
  clearbody kG.
  destruct Hudid as (w & middle & z & -> & Hw & Hmid & Hmiddle & Hz).
  destruct (word_nonempty w Hw) as (a & w' & -> & Ha & Hw').
  destruct middle as [|b middle]; [done|].
  assert (is_dot b = true) as Hb.
  { rewrite Forall_forall in Hchars. apply Hchars.
    rewrite elem_of_app. right. by right; left. }
  assert (Forall (λ a, is_dot a = true) middle) as Hdots.
  { rewrite Forall_forall in Hchars |- *. intros x Hx. apply Hchars.
    rewrite elem_of_app. right. right. right. rewrite elem_of_app. by left. }
  rewrite run_Seq. rewrite <- !app_assoc. cbn [app]. rewrite run_Plus_Chr by done.
  apply scan_furthest; [done | right; by eexists _, _ |].
  rewrite run_Seq, run_Chr_hit by apply Ascii.eqb_refl.
  rewrite run_Seq, run_Plus_Chr by done.
  rewrite <- app_assoc. cbn [app].
  apply scan_earlier; [done|].
  rewrite scan_first by done.
  rewrite run_Plus_Chr by done.
  rewrite scan_stopped; [done|]. right. by eexists _, _.
Qed.

(** At a state, the udid group finds no hyphen after the first word. *)
Lemma udid_rejects_state state r c :
  state_text state → run (Seq udidGroup r) accept (state ++ js ")") c = None.
Proof.
  intros Hstate. destruct (state_head state Hstate) as (a & st & Heq & Ha).
  pose proof (state_chars state Hstate) as Hchars. subst state.
  rewrite run_Seq. unfold udidGroup. rewrite run_Group, run_Seq.
  cbn [app]. rewrite run_Plus_Chr by done. apply scan_none. intros t Ht.
  rewrite run_Seq. destruct t as [|x t']; [done|]. cbn [run].
  destruct (Ascii.eqb_spec "-"%char x) as [<-|]; [|done]. exfalso.
  assert ("-"%char ∈ st ++ js ")") as Hin.
  { eapply elem_of_suffix; [|exact Ht]. by left. }
  apply elem_of_app in Hin as [Hin|Hin].
  - inversion Hchars as [|? ? _ Hst]; subst. rewrite Forall_forall in Hst.
    by destruct (Hst _ Hin) as (_ & ? & _).
  - by apply list_elem_of_singleton in Hin.
Qed.

(** The device-line pattern, tried at the name, matches the whole line and
    captures the name, the udid and the state. *)
Lemma run_line name udid state :
  name_text name → udid_text udid → state_text state →
  run lineRe accept (device_text name udid state) []
  = Some ([], [(3, state); (2, udid); (1, name)]).
Proof.
  intros Hname Hudid Hstate. unfold device_text.
  rewrite lineRe_groups, run_Seq. unfold nameGroup. rewrite run_Group.
  set (T := udid ++ js ") (" ++ state ++ js ")").
  set (rest := Seq (Lit (js " ("))
                 (Seq udidGroup (Seq (Lit (js ") (")) (Seq stateGroup (Lit (js ")")))))).
  set (kG := λ s' c', run rest accept s'
                        (set_cap 1 (take (length (name ++ js " (" ++ T) - length s')
                                      (name ++ js " (" ++ T)) c')).
  assert (kG (js " (" ++ T) [] = Some ([], [(3, state); (2, udid); (1, name)])) as HkG.
  { unfold kG, rest. rewrite take_consumed, run_Seq, run_Lit. by apply run_udid. }
  assert (∀ t c, starts_with (js " (") t = false → kG t c = None) as Hmis.
  { intros t c Ht. unfold kG, rest. rewrite run_Seq. by apply run_Lit_mismatch. }
  assert (∀ t, t `suffix_of` "("%char :: T → kG t [] = None) as Hrej.
  { intros t Ht. destruct t as [|x t']; [by apply Hmis|].
    apply suffix_cons_inv in Ht as [[= -> _]|Ht]; [by apply Hmis|].
    unfold T in Ht. apply suffix_app_head in Ht as [(y & l' & [= -> ->] & Hy)|Ht].
    { apply Hmis, starts_with_head.
      pose proof (udid_chars udid Hudid) as Hchars. rewrite Forall_forall in Hchars.
      destruct (Hchars _ Hy) as [_ Hne]. congruence. }
    unfold js in Ht. cbn [list_ascii_of_string app] in Ht.
    apply suffix_cons_inv in Ht as [[= -> _]|Ht]; [by apply Hmis|].
    apply suffix_cons_inv in Ht as [[= -> ->]|Ht].
    { unfold kG, rest. rewrite run_Seq.
      change (" "%char :: "("%char :: state ++ [")"%char])
        with (js " (" ++ state ++ js ")").
      rewrite run_Lit. by apply udid_rejects_state. }
    apply suffix_cons_inv in Ht as [[= -> _]|Ht]; [by apply Hmis|].
    apply Hmis. by apply (no_open (state ++ js ")")); [apply closed_state_no_open|]. }
  clearbody kG.
  destruct Hname as (a & name' & -> & Ha & Hne & Hname').
  destruct name' as [|b name']; [done|]. inversion Hname' as [|? ? Hb Hdots]; subst.
  cbn [app]. rewrite run_Seq, run_Chr_hit by (by rewrite Ha).
  rewrite run_Plus_Chr by done.
  apply scan_earlier; [done|].
  change (js " (" ++ T) with (" "%char :: "("%char :: T) in *.
  by rewrite scan_first.
Qed.

(** [exec] skips the indentation and matches the line. *)
Lemma exec_device_text name udid state :
  name_text name → udid_text udid → state_text state →
  exec lineRe (indent ++ device_text name udid state)
  = Some {| m_full := device_text name udid state;
            m_caps := [(3, state); (2, udid); (1, name)] |}.
Proof.
  intros Hname Hudid Hstate. unfold exec, indent, js. cbn [list_ascii_of_string app].
  do 4 (rewrite search_unfold;
        match goal with
        | |- context [run lineRe accept (?sp :: ?s) []] =>
            change (run lineRe accept (sp :: s) []) with (@None (jstring * caps))
        end).
  pose proof (run_line name udid state Hname Hudid Hstate) as Hrun.
  rewrite <- (app_nil_r (device_text name udid state)) in Hrun |- *.
  rewrite (search_hit lineRe (device_text name udid state) [] _ _ Hrun).
  by rewrite app_nil_r.
Qed.

(** A line written out from a name, a udid and a state is a well-formed
    device line, and its record holds the three of them. *)
Lemma device_text_line name udid state :
  name_text name → udid_text udid → state_text state →
  device_line (device_text name udid state)
  ∧ ∀ v, device_of v (indent ++ device_text name udid state)
         = {| name := Some name; udid := Some udid; state := Some state; sdk := v |}.
Proof.
  intros Hname Hudid Hstate. split; [split|].
  - unfold one_line, device_text. rewrite !Forall_app. split_and!.
    + destruct Hname as (a & name' & -> & Ha & _ & Hname').
      constructor; [by apply nonspace_char | done].
    + by repeat constructor.
    + eapply Forall_impl; [by apply udid_chars|]. by intros a [? _].
    + by repeat constructor.
    + eapply Forall_impl; [by apply state_chars|]. by intros a [? _].
    + by repeat constructor.
  - by rewrite exec_device_text.
  - intros v. unfold device_of, line_caps. by rewrite exec_device_text.
Qed.

End DeviceLines.

(** C1, the claim as stated fails: this listing has two section headers,
    both [-- iOS 8.1 --], each followed by one well-formed device line; the
    mapping returned has one key, not two, and its list holds only the
    device of the second section. *)
Lemma getDevicesByParsing_repeated_header :
  ∃ devices,
    getDevicesByParsing (js "-- iOS 8.1 --
    iPhone 4s (3CA6E7DD-220E-45E5-B716-1E992B3A429C) (Shutdown)
-- iOS 8.1 --
    iPhone 5 (A99FFFC3-8E19-4DCF-B585-7D9D46B4C16E) (Booted)") = Some (Ok devices)
    ∧ size (own devices) = 1
    ∧ own devices !! js "8.1" =
      Some [ {| name := Some (js "iPhone 5");
                udid := Some (js "A99FFFC3-8E19-4DCF-B585-7D9D46B4C16E");
                state := Some (js "Booted");
                sdk := Some (js "8.1") |} ].
Proof.
  eexists. split_and!.
  - vm_compute. reflexivity.
  - vm_compute. reflexivity.
  - vm_compute. reflexivity.
Qed.

(** C1, amended. For every text made of a preamble (nothing, or whole
    lines without a header), N >= 1 sections and a postamble (nothing, or a
    line break and text that neither continues the last section nor holds a
    header), the i-th section a header [-- iOS v_i --] followed by M_i
    well-formed device lines indented by four spaces, where each [v_i] is a
    non-empty text without line terminators, the [v_i] are pairwise
    different and none is [__proto__]: the parser returns a mapping with
    exactly N keys, the [v_i]; the list of [v_i] has exactly M_i records, in
    the order of the lines; the j-th record holds the three captures of the
    device-line pattern on the j-th line, which are the name, the udid and
    the state when the line is written [<name> (<udid>) (<state>)], and its
    [sdk] field is [v_i]. *)
Theorem getDevicesByParsing_sections (pre post : jstring) (secs : list section) :
  preamble pre → postamble post →
  secs ≠ [] → Forall well_formed secs → NoDup secs.*1 → proto_key ∉ secs.*1 →
  ∃ devices,
    getDevicesByParsing (pre ++ render_listing secs ++ post) = Some (Ok devices)
    ∧ size (own devices) = length secs
    ∧ ∀ i v ds, secs !! i = Some (v, ds) →
        ∃ records,
          own devices !! v = Some records
          ∧ length records = length ds
          ∧ ∀ j d, ds !! j = Some d →
              (∃ lineMatch,
                 exec lineRe (indent ++ d) = Some lineMatch
                 ∧ records !! j = Some {| name := cap 1 (m_caps lineMatch);
                                          udid := cap 2 (m_caps lineMatch);
                                          state := cap 3 (m_caps lineMatch);
                                          sdk := Some v |})
              ∧ ∀ name udid state,
                  d = device_text name udid state →
                  name_text name → udid_text udid → state_text state →
                  records !! j = Some {| name := Some name; udid := Some udid;
                                         state := Some state; sdk := Some v |}.
Proof.
  intros Hpre Hpost Hne Hwf Hnd Hproto. destruct secs as [|sec secs]; [done|].
  destruct (exec_loop_listing pre sec secs post Hpre Hpost Hwf) as (ms & Hloop & Hms).
  unfold getDevicesByParsing. rewrite Hloop. cbn [mbind option_bind].
  assert ((length ms <? 1) = false) as ->.
  { apply Nat.ltb_ge. inversion Hms; subst. simpl. lia. }
  rewrite (add_sections_fold _ _ _ Hms Hwf Hproto). cbn [own proto empty_object].
  eexists. split_and!; [done | |].
  - cbn [own]. rewrite foldl_insert_size; [|done|].
    + by rewrite map_size_empty.
    + intros k _. apply lookup_empty.
  - intros i v ds Hi. cbn [own].
    apply list_elem_of_lookup_2 in Hi as Hin.
    pose proof (foldl_insert_lookup _ ∅ _ Hnd Hin) as Hlookup. cbn [fst] in Hlookup.
    exists (section_records (v, ds)). split_and!; [done | |].
    + unfold section_records. by rewrite length_fmap.
    + intros j d Hj.
      assert (section_records (v, ds) !! j = Some (device_of (Some v) (indent ++ d)))
        as Hrecord.
      { unfold section_records. cbn [fst snd]. by rewrite list_lookup_fmap, Hj. }
      split.
      * rewrite Forall_forall in Hwf.
        destruct (Hwf _ Hin) as (_ & _ & Hds). cbn [snd] in Hds.
        rewrite Forall_forall in Hds.
        destruct (Hds d (list_elem_of_lookup_2 _ _ _ Hj)) as [_ [lineMatch Hmatch]].
        exists lineMatch. split; [done|].
        rewrite Hrecord. unfold device_of, line_caps. by rewrite Hmatch.
      * intros name udid state -> Hname Hudid Hstate. rewrite Hrecord.
        by destruct (device_text_line name udid state Hname Hudid Hstate) as [_ ->].
Qed.

Lemma getDevicesByParsing_sections_witness :
  (js "== Devices ==" ++ [nl]) ++ render_listing sample_listing ++ [nl] = js "== Devices ==
-- iOS 8.1 --
    iPhone 4s (3CA6E7DD-220E-45E5-B716-1E992B3A429C) (Shutdown)
    iPad Air 2 (5B4C2B37-6F0C-4B2E-9D1A-0E4F6A3C9D21) (Shutting Down)
-- iOS 8.2 --
    iPhone 4s (A99FFFC3-8E19-4DCF-B585-7D9D46B4C16E) (Shutdown)
"
  ∧ ∃ devices,
      getDevicesByParsing
        ((js "== Devices ==" ++ [nl]) ++ render_listing sample_listing ++ [nl])
      = Some (Ok devices)
      ∧ size (own devices) = 2
      ∧ ∃ records,
          own devices !! js "8.1" = Some records ∧ length records = 2
          ∧ records !! 1 =
            Some {| name := Some (js "iPad Air 2");
                    udid := Some (js "5B4C2B37-6F0C-4B2E-9D1A-0E4F6A3C9D21");
                    state := Some (js "Shutting Down");
                    sdk := Some (js "8.1") |}.
Proof.
  split; [vm_compute; reflexivity|].
  assert (preamble (js "== Devices ==" ++ [nl])) as Hpre.
  { split; [right; by eexists | vm_compute; reflexivity]. }
  assert (postamble [nl]) as Hpost.
  { split; [right; eexists; split; [done | by left] | vm_compute; reflexivity]. }
  assert (sample_listing ≠ []) as Hne by discriminate.
  assert (Forall well_formed sample_listing) as Hwf.
  { unfold well_formed, device_line, one_line.
    apply (bool_decide_unpack _). vm_compute. exact I. }
  assert (NoDup sample_listing.*1) as Hnd.
  { apply (bool_decide_unpack _). vm_compute. exact I. }
  assert (proto_key ∉ sample_listing.*1) as Hproto.
  { apply (bool_decide_unpack _). vm_compute. exact I. }
  destruct (getDevicesByParsing_sections _ _ sample_listing Hpre Hpost Hne Hwf Hnd Hproto)
    as (devices & Hrun & Hsize & Hsecs).
  exists devices. split_and!; [done | done |].
  destruct (Hsecs 0 _ _ eq_refl) as (records & Hlookup & Hlen & Hlines).
  exists records. split_and!; [done | done |].
  destruct (Hlines 1 _ eq_refl) as [_ Hparts].
  apply (Hparts (js "iPad Air 2") (js "5B4C2B37-6F0C-4B2E-9D1A-0E4F6A3C9D21")
           (js "Shutting Down")).
  - vm_compute. reflexivity.
  - exists "i"%char, (js "Pad Air 2"). split_and!; try done.
    unfold one_line. apply (bool_decide_unpack _). vm_compute. exact I.
  - exists (js "5B4C2B37"), (js "6F0C-4B2E-9D1A-0E4F6A3C9D2"), "1"%char.
    unfold word. split_and!; try done;
      apply (bool_decide_unpack _); vm_compute; exact I.
  - right. exists (js "Shutting"), " "%char, (js "Down").
    unfold word. split_and!; try done;
      apply (bool_decide_unpack _); vm_compute; exact I.
Defined.

(** * More of the module *)

(** ** The commands, one by one *)

Section Commanding.

Variable sys : collaborators.









End Commanding.


(** ** Trimmed texts *)

Section Trimming.

Implicit Types (s : jstring) (a : ascii).












End Trimming.

(** ** The commands that read the output *)

Section Reading.

Variable sys : collaborators.




(** X8. With a timeout below 200 [eraseDevice] has no attempt to make: it
    erases nothing, runs nothing, and resolves all the same. *)
Theorem eraseDevice_short_timeout (udid : jstring) (t : Z) (h : list event) :
  (- max_safe_integer ≤ t < 200)%Z →
  eraseDevice sys udid t h = (Ok None, h).
Proof.
  intros Ht. unfold eraseDevice, retryInterval, parseInt_quotient.
  assert (Z.to_nat (t ÷ 200) = 0) as ->; [|done].
  destruct (Z.le_gt_cases 0 t).
  - rewrite Z.quot_small by lia. done.
  - pose proof (Z.quot_opp_l t 200 ltac:(lia)) as Hq.
    pose proof (Z.quot_pos (- t) 200 ltac:(lia) ltac:(lia)). lia.
Qed.

End Reading.


Lemma eraseDevice_short_timeout_witness :
  eraseDevice (failing_tool (js "busy")) (js "A1B2") 199 [] = (Ok None, []).
Proof.
  apply (eraseDevice_short_timeout (failing_tool (js "busy")) (js "A1B2") 199 []).
  unfold max_safe_integer. lia.
Defined.

(** ** Retried commands *)

Section Retrying.

Variable sys : collaborators.
Variables (command : jstring) (timeout : Z) (args : list jstring) (delay : Z).

Let run : event :=
  Executed (js "fbsimctl") (command :: args) timeout (process_env sys).




End Retrying.

Section Launching.

Variable sys : collaborators.


End Launching.


(** ** The environment of the child *)

Section ChildEnvironment.

Variable sys : collaborators.

(** X10. The environment that the invoker hands over holds the overrides
    under their prefixed names and the variables of the process, and
    nothing else: a variable is set exactly when it is one of the two; an
    override wins over a variable of the process with the same prefixed
    name; and a name that is no prefixed override reads as in the process,
    so the unprefixed name of an override is not set by it. *)
Theorem child_env_variables (E : gmap jstring jstring) (x : jstring) :
  (is_Some (child_env sys E !! x)
   ↔ (∃ k, x = js "SIMCTL_CHILD_" ++ k ∧ is_Some (E !! k))
     ∨ is_Some (process_env sys !! x))
  ∧ (∀ k v, x = js "SIMCTL_CHILD_" ++ k → E !! k = Some v →
       child_env sys E !! x = Some v)
  ∧ ((∀ k, is_Some (E !! k) → js "SIMCTL_CHILD_" ++ k ≠ x) →
     child_env sys E !! x = process_env sys !! x).
Proof.
  split_and!.
  - split.
    + intros [v Hv]. apply child_env_origin in Hv as [(k & -> & Hk)|Hp].
      * left. exists k. split; [done | by eexists].
      * right. by eexists.
    + intros [(k & -> & [v Hk])|[v Hp]].
      * exists v. by apply child_env_override.
      * unfold child_env, defaults. apply lookup_union_is_Some. right. by eexists.
  - intros k v -> Hk. by apply child_env_override.
  - intros Hfree. unfold child_env, defaults, mapKeys. rewrite lookup_union.
    assert (kmap child_key E !! x = None) as ->.
    { apply lookup_kmap_None; [apply _|]. intros k Hk.
      destruct (E !! k) as [v|] eqn:Hv; [|done].
      exfalso. apply (Hfree k); [by eexists | done]. }
    by rewrite (left_id_L None (∪)).
Qed.

End ChildEnvironment.

(** ** More on the delimited listing *)

Section DelimitedEdges.

Implicit Types (stdout item k : jstring).

Lemma filter_all {A} (P : A → Prop) `{!∀ x, Decision (P x)} (l : list A) :
  Forall P l → filter P l = l.
Proof.
  induction 1 as [|x l Hx _ IH]; [done|]. by rewrite filter_cons_True, IH.
Qed.

Lemma filter_none {A} (P : A → Prop) `{!∀ x, Decision (P x)} (l : list A) :
  Forall (λ x, ¬ P x) l → filter P l = [].
Proof.
  induction 1 as [|x l Hx _ IH]; [done|]. by rewrite filter_cons_False.
Qed.

Lemma short_item_key item :
  length (split bar item) < 5 → item_key item = js "undefined".
Proof.
  intros Hlen. unfold item_key, item_segments.
  rewrite list_lookup_fmap, lookup_ge_None_2; [done | lia].
Qed.

(** X11. When every line of the listing has fewer than five fields, an
    empty listing among them, [getDevices] without a filter still returns a
    mapping: all the records, one for each line and never none, are filed
    under the key [undefined]. *)
Theorem getDevices_short_lines (stdout : jstring) :
  Forall (λ item, length (split bar item) < 5) (split nl stdout) →
  getDevices stdout None =
    Ok (AllDevices {[ js "undefined" := item_record <$> split nl stdout ]})
  ∧ item_record <$> split nl stdout ≠ []
  ∧ Forall (λ d, is_Some (udid d) ∧ sdk d = None) (item_record <$> split nl stdout).
Proof.
  intros Hshort.
  assert (Forall (λ item, item_key item = js "undefined") (split nl stdout)) as Hkeys.
  { eapply Forall_impl; [exact Hshort|]. apply short_item_key. }
  destruct (getDevices_grouped stdout) as (devices & Hrun & Hlookup).
  { eapply Forall_impl; [exact Hkeys|]. intros item Hitem. cbv beta in *. by rewrite Hitem. }
  pose proof (split_nonempty nl stdout) as Hne.
  split_and!.
  - rewrite Hrun. do 2 f_equal. apply map_eq. intros k. rewrite Hlookup.
    unfold records_for. destruct (decide (k = js "undefined")) as [->|Hk].
    + rewrite lookup_singleton_eq, filter_all by done.
      by destruct (split nl stdout).
    + rewrite lookup_singleton_ne by done. rewrite filter_none; [done|].
      eapply Forall_impl; [exact Hkeys|]. intros item Hitem Heq. cbv beta in *. congruence.
  - by destruct (split nl stdout).
  - rewrite Forall_fmap. apply Forall_forall. intros item _. split; [|done].
    unfold item_record, item_segments. cbn [udid]. rewrite list_lookup_fmap.
    pose proof (split_nonempty bar item). by destruct (split bar item); [|eexists].
Qed.

(** X12. On a listing with plain keys a filter that names a member every
    object inherits, [toString] for one, is not answered with the error for
    an unknown SDK: [getDevices] returns the inherited member. *)
Theorem getDevices_inherited_filter (stdout s : jstring) :
  inherited s = true → plain_keys (split nl stdout) →
  getDevices stdout (Some s) = Ok (SdkDevices (VInherited s)).
Proof.
  intros Hs Hplain. unfold getDevices.
  destruct (add_items_grouped (split nl stdout) ∅ Hplain) as (devices & -> & Hlookup).
  cbn [bind]. destruct s as [|a s]; [done|]. cbn [truthy to_key].
  unfold get_property. rewrite Hlookup, lookup_empty, Hs.
  unfold records_for. rewrite filter_none; [done|].
  eapply Forall_impl; [exact Hplain|]. intros item Hitem Heq. cbv beta in Hitem.
  by rewrite Heq, Hs in Hitem.
Qed.

(** X13. [getDevices] fails with the [TypeError] of the grouping loop
    exactly when a line of the listing is filed under a name inherited from
    [Object.prototype], and then it does so whatever the filter; on every
    other listing it does not. *)
Theorem getDevices_type_error (stdout : jstring) (forSdk : option jstring) :
  getDevices stdout forSdk = Throw not_a_function ↔ ¬ plain_keys (split nl stdout).
Proof.
  split.
  - intros Hthrow Hplain. unfold getDevices in Hthrow.
    destruct (add_items_grouped (split nl stdout) ∅ Hplain) as (devices & Hrun & _).
    rewrite Hrun in Hthrow. cbn [bind] in Hthrow.
    destruct (truthy forSdk); [|done].
    by destruct (get_property devices (to_key forSdk)).
  - intros Hplain. unfold getDevices. rewrite add_items_inherited; [done | |].
    + intros k [l Hl]. by rewrite lookup_empty in Hl.
    + unfold plain_keys in Hplain. apply not_Forall_Exists in Hplain; [|apply _].
      eapply Exists_impl; [exact Hplain|]. intros item Hitem. unfold compose in Hitem.
      by destruct (inherited (item_key item)).
Qed.

End DelimitedEdges.

Lemma getDevices_short_lines_witness :
  getDevices [] None =
  Ok (AllDevices {[ js "undefined" :=
                      [ {| name := None; udid := Some []; state := None; sdk := None |} ] ]}).
Proof.
  destruct (getDevices_short_lines []) as (Hrun & _).
  - repeat constructor.
  - rewrite Hrun. vm_compute. reflexivity.
Defined.

Lemma getDevices_inherited_filter_witness :
  getDevices (js "A1B2|iPhone 11|Booted|x|iOS 14.4") (Some (js "toString"))
  = Ok (SdkDevices (VInherited (js "toString"))).
Proof.
  apply getDevices_inherited_filter.
  - vm_compute. reflexivity.
  - unfold plain_keys. apply (bool_decide_unpack _). vm_compute. exact I.
Defined.

(** ** More on the section listing *)

Section SectionEdges.

Implicit Types (k : cont) (s t rest d : jstring) (c : caps) (sec : section).

(** X14. A text with no [-- iOS ] in it has no device section: the parser
    ends with the error "Could not find device section", whatever else the
    text holds (the sections of other platforms, for one). *)
Theorem getDevicesByParsing_no_section (stdout : jstring) :
  includes header_start stdout = false →
  getDevicesByParsing stdout =
  Some (Throw (Error (js "Could not find device section"))).
Proof.
  intros Hinc. unfold getDevicesByParsing. rewrite Nat.add_comm.
  change (2 + length stdout) with (S (S (length stdout))). rewrite exec_loop_S.
  change (exec_global deviceSectionRe stdout 0) with (search deviceSectionRe stdout 0).
  by rewrite postamble_no_match.
Qed.

Lemma run_lineRe_space a s : is_space a = true → run lineRe accept (a :: s) [] = None.
Proof.
  intros Ha. rewrite lineRe_groups, run_Seq. unfold nameGroup.
  rewrite run_Group, run_Seq. cbn [run]. by rewrite Ha.
Qed.

(** X15. On a line written [<name> (<udid>) (<state>)] after any run of
    white space, the device-line pattern finds the name, the udid and the
    state: the match starts after the white space and its three groups are
    the three texts. *)
Theorem lineRe_captures (pad name udid state : jstring) :
  Forall (λ a, is_space a = true) pad →
  name_text name → udid_text udid → state_text state →
  exec lineRe (pad ++ device_text name udid state)
  = Some {| m_full := device_text name udid state;
            m_caps := [(3, state); (2, udid); (1, name)] |}.
Proof.
  intros Hpad Hname Hudid Hstate. unfold exec. rewrite search_skip.
  - pose proof (run_line name udid state Hname Hudid Hstate) as Hrun.
    rewrite <- (app_nil_r (device_text name udid state)) in Hrun |- *.
    rewrite (search_hit lineRe (device_text name udid state) [] _ _ Hrun).
    by rewrite app_nil_r.
  - intros t Hne [k ->]. apply Forall_app in Hpad as [_ Ht].
    destruct t as [|a t]; [done|]. inversion Ht; subst.
    cbn [app]. by apply run_lineRe_space.
Qed.

End SectionEdges.

Lemma getDevicesByParsing_no_section_witness :
  getDevicesByParsing (js "== Devices ==
-- tvOS 9.0 --
    Apple TV 1080p (0A1B2C3D-1111-2222-3333-444455556666) (Shutdown)")
  = Some (Throw (Error (js "Could not find device section"))).
Proof. apply getDevicesByParsing_no_section. vm_compute. reflexivity. Defined.

Lemma lineRe_captures_witness :
  exec lineRe (js "  iPad Air 2 (5B4C2B37-6F0C-4B2E-9D1A-0E4F6A3C9D21) (Shutting Down)")
  = Some {| m_full := js "iPad Air 2 (5B4C2B37-6F0C-4B2E-9D1A-0E4F6A3C9D21) (Shutting Down)";
            m_caps := [(3, js "Shutting Down");
                       (2, js "5B4C2B37-6F0C-4B2E-9D1A-0E4F6A3C9D21");
                       (1, js "iPad Air 2")] |}.
Proof.
  apply (lineRe_captures (js "  ") (js "iPad Air 2")
           (js "5B4C2B37-6F0C-4B2E-9D1A-0E4F6A3C9D21") (js "Shutting Down")).
  - by repeat constructor.
  - exists "i"%char, (js "Pad Air 2"). split_and!; try done.
    unfold one_line. apply (bool_decide_unpack _). vm_compute. exact I.
  - exists (js "5B4C2B37"), (js "6F0C-4B2E-9D1A-0E4F6A3C9D2"), "1"%char.
    unfold word. split_and!; try done;
      apply (bool_decide_unpack _); vm_compute; exact I.
  - right. exists (js "Shutting"), " "%char, (js "Down").
    unfold word. split_and!; try done;
      apply (bool_decide_unpack _); vm_compute; exact I.
Defined.

(** ** What every result of the section parser satisfies *)

Section Invariant.

Implicit Types (k : cont) (s t rest : jstring) (c : caps) (devices : object).

Lemma star_keeps body gs n : keeps gs body → keeps gs (λ k, star body gs k n).
Proof.
  intros Hbody. induction n as [|n IH]; intros k s c x Hx.
  - exists s, c. by split.
  - cbn [star] in Hx.
    destruct (body _ s (clear gs c)) as [y|] eqn:Hy.
    + injection Hx as ->. apply Hbody in Hy as (s1 & c1 & Hc1 & Hk).
      destruct (length s1 <? length s); [|done].
      apply IH in Hk as (s2 & c2 & Hc2 & Hk). exists s2, c2. split; [|done].
      intros j Hj. by rewrite Hc2, Hc1, cap_clear_other.
    + exists s, c. by split.
Qed.

Lemma run_keeps r : keeps (groups r) (run r).
Proof.
  induction r as [|p|r1 IH1 r2 IH2|i r IH|r IH|r IH]; intros k s c x Hx;
    cbn [run groups] in *.
  - exists s, c. by split.
  - destruct s as [|a s]; [done|]. destruct (p a); [|done]. exists s, c. by split.
  - apply IH1 in Hx as (s1 & c1 & Hc1 & Hx).
    apply IH2 in Hx as (s2 & c2 & Hc2 & Hx). exists s2, c2. split; [|done].
    intros j Hj. apply not_elem_of_app in Hj as [Hj1 Hj2]. by rewrite Hc2, Hc1.
  - apply IH in Hx as (s1 & c1 & Hc1 & Hx). eexists _, _. split; [|exact Hx].
    intros j Hj. apply not_elem_of_cons in Hj as [Hne Hj].
    cbn [set_cap cap]. apply Nat.eqb_neq in Hne as ->. by apply Hc1.
  - destruct (run r _ s (clear (groups r) c)) as [y|] eqn:Hy.
    + injection Hx as ->. apply IH in Hy as (s1 & c1 & Hc1 & Hk).
      destruct (length s1 <? length s); [|done]. exists s1, c1. split; [|done].
      intros j Hj. by rewrite Hc1, cap_clear_other.
    + exists s, c. by split.
  - by apply (star_keeps (run r) (groups r) (length s) IH) in Hx.
Qed.

(** A group that is on the way of every match has a capture when the
    match is there. *)
Lemma run_sets i r k s c x :
  always_sets i r = true → run r k s c = Some x →
  ∃ s' c', is_Some (cap i c') ∧ k s' c' = Some x.
Proof.
  revert k s c.
  induction r as [|p|r1 IH1 r2 IH2|j r IH|r IH|r IH]; intros k s c Hsets Hx;
    cbn [always_sets] in Hsets; try done.
  - cbn [run] in Hx. apply orb_true_iff in Hsets as [H2|H1].
    + apply run_forward in Hx as (s1 & c1 & _ & Hx). by apply (IH2 _ s1 c1).
    + apply andb_true_iff in H1 as [H1 Hfree]. apply bool_decide_eq_true in Hfree.
      apply IH1 in Hx as (s1 & c1 & Hcap & Hx); [|done].
      apply run_keeps in Hx as (s2 & c2 & Hc2 & Hx).
      exists s2, c2. split; [|done]. by rewrite Hc2.
  - cbn [run] in Hx. destruct (Nat.eqb_spec i j) as [->|Hne].
    + apply run_forward in Hx as (s1 & c1 & _ & Hx). eexists _, _.
      split; [|exact Hx]. cbn [set_cap cap]. rewrite Nat.eqb_refl. by eexists.
    + cbn [orb] in Hsets. apply IH in Hx as (s1 & c1 & Hcap & Hx); [|done].
      eexists _, _. split; [|exact Hx]. cbn [set_cap cap].
      by apply Nat.eqb_neq in Hne as ->.
Qed.

Lemma search_caps i r s idx m e :
  always_sets i r = true → search r s idx = Some (m, e) → is_Some (cap i (m_caps m)).
Proof.
  intros Hsets. revert idx. induction s as [|a s IH]; intros idx; rewrite search_unfold.
  - destruct (run r accept [] []) as [[rest c]|] eqn:Hrun; [|done].
    intros [= <- _]. apply (run_sets i) in Hrun as (s' & c' & Hcap & [= _ <-]); done.
  - destruct (run r accept (a :: s) []) as [[rest c]|] eqn:Hrun; [|by apply IH].
    intros [= <- _]. apply (run_sets i) in Hrun as (s' & c' & Hcap & [= _ <-]); done.
Qed.

Lemma exec_caps i r line m :
  always_sets i r = true → exec r line = Some m → is_Some (cap i (m_caps m)).
Proof.
  intros Hsets. unfold exec. destruct (search r line 0) as [[m' e]|] eqn:Hs; [|done].
  intros [= <-]. by eapply search_caps.
Qed.

Lemma exec_loop_caps i r fuel s lastIndex ms :
  always_sets i r = true → exec_loop fuel r s lastIndex = Some ms →
  Forall (λ m, is_Some (cap i (m_caps m))) ms.
Proof.
  intros Hsets. revert lastIndex ms.
  induction fuel as [|fuel IH]; intros lastIndex ms; [done|]. rewrite exec_loop_S.
  destruct (exec_global r s lastIndex) as [[m e]|] eqn:Hexec.
  - destruct (exec_loop fuel r s e) as [ms'|] eqn:Hloop; [|done].
    intros [= <-]. constructor; [|by eapply IH].
    unfold exec_global in Hexec. destruct (length s <? lastIndex); [done|].
    by eapply search_caps.
  - intros [= <-]. constructor.
Qed.

Lemma assign_empty_sound devices v : sound devices → sound (assign_empty devices v).
Proof.
  intros [Hproto Hall]. unfold assign_empty. case_bool_decide as Hv; [done|].
  split; cbn [own].
  - by rewrite lookup_insert_ne.
  - intros k l. destruct (decide (k = v)) as [->|Hk].
    + rewrite lookup_insert_eq. by intros [= <-].
    + rewrite lookup_insert_ne by done. apply Hall.
Qed.

Lemma add_lines_sound v lines devices devices' :
  add_lines (Some v) lines devices = Ok devices' → sound devices → sound devices'.
Proof.
  revert devices. induction lines as [|line lines IH]; intros devices; cbn [add_lines].
  { by intros [= <-]. }
  destruct (exec lineRe line) as [m|] eqn:Hm; [|done].
  unfold push_device. cbn [to_key]. intros Hrun [Hproto Hall].
  case_bool_decide as Hv.
  - destruct (proto devices); [|done]. cbn [bind] in Hrun.
    apply IH in Hrun; [done|]. by split.
  - destruct (own devices !! v) as [l|] eqn:Hl; [|done]. cbn [bind] in Hrun.
    apply IH in Hrun; [done|]. split; cbn [own].
    + by rewrite lookup_insert_ne.
    + intros k l'. destruct (decide (k = v)) as [->|Hk].
      * rewrite lookup_insert_eq. intros [= <-]. apply Forall_app. split; [by apply Hall|].
        repeat constructor; cbn [name udid state sdk]; by apply (exec_caps _ lineRe line).
      * rewrite lookup_insert_ne by done. apply Hall.
Qed.

Lemma add_sections_sound ms devices devices' :
  Forall (λ m, is_Some (cap 1 (m_caps m))) ms →
  add_sections ms devices = Ok devices' → sound devices → sound devices'.
Proof.
  intros Hms. revert devices. induction Hms as [|m ms [v Hv] _ IH]; intros devices.
  { by intros [= <-]. }
  cbn [add_sections]. rewrite Hv. cbn [to_key].
  destruct (add_lines (Some v) (section_lines m) (assign_empty devices v))
    as [devices1|] eqn:Hlines; [|done].
  cbn [bind]. intros Hrun Hsound. apply (IH _ Hrun).
  by apply (add_lines_sound _ _ _ _ Hlines), assign_empty_sound.
Qed.

(** X16. Whatever the text, when [getDevicesByParsing] returns a mapping
    every record in it has its four fields: the [sdk] field is the key that
    the record is filed under, and the name, the udid and the state are
    there.  The mapping has no property [__proto__] of its own. *)
Theorem getDevicesByParsing_records (stdout : jstring) (devices : object) :
  getDevicesByParsing stdout = Some (Ok devices) →
  own devices !! proto_key = None
  ∧ ∀ (key : jstring) l d, own devices !! key = Some l → d ∈ l →
      sdk d = Some key ∧ is_Some (name d) ∧ is_Some (udid d) ∧ is_Some (state d).
Proof.
  unfold getDevicesByParsing.
  destruct (exec_loop _ deviceSectionRe stdout 0) as [ms|] eqn:Hloop; [|done].
  cbn [mbind option_bind]. destruct (length ms <? 1); [done|]. intros [= Hrun].
  apply (exec_loop_caps 1) in Hloop; [|done].
  destruct (add_sections_sound ms empty_object devices Hloop Hrun) as [Hproto Hall].
  { split; [done|]. intros key l Hl. unfold empty_object in Hl. cbn [own] in Hl.
    by rewrite lookup_empty in Hl. }
  split; [done|]. intros key l d Hl Hd. specialize (Hall key l Hl).
  rewrite Forall_forall in Hall. by apply Hall.
Qed.

End Invariant.

Lemma getDevicesByParsing_records_witness :
  let text := js "-- iOS 8.1 --
    iPhone 4s (3CA6E7DD-220E-45E5-B716-1E992B3A429C) (Shutdown)
-- iOS __proto__ --
    iPhone 5 (A99FFFC3-8E19-4DCF-B585-7D9D46B4C16E) (Booted)" in
  ∃ devices,
    getDevicesByParsing text = Some (Ok devices)
    ∧ own devices !! proto_key = None
    ∧ ∀ l d, own devices !! js "8.1" = Some l → d ∈ l → sdk d = Some (js "8.1").
Proof.
  intros text.
  destruct (getDevicesByParsing text) as [[devices|e]|] eqn:Hrun;
    [|vm_compute in Hrun; discriminate Hrun ..].
  exists devices.
  destruct (getDevicesByParsing_records text devices Hrun) as [Hproto Hall].
  split_and!; [done | done |]. intros l d Hl Hd. by destruct (Hall _ l d Hl Hd).
Defined.

(** ** Sections with lines of any kind *)

Section PlainSections.

Implicit Types (k : cont) (s rest d : jstring) (c : caps) (sec : section)
  (secs : list section) (devices : object).

Lemma text_line_nonempty d : text_line d → ∃ a d', d = a :: d' ∧ is_dot a = true ∧ one_line d'.
Proof.
  intros [Hne Hone]. destruct d as [|a d']; [done|]. inversion Hone; subst. eauto.
Qed.

Lemma device_line_text d : device_line d → text_line d.
Proof.
  intros Hd. destruct (device_line_nonempty d Hd) as (a & d' & -> & _ & _).
  split; [done | by destruct Hd].
Qed.

Lemma well_formed_plain sec : well_formed sec → plain_section sec.
Proof.
  intros (Hv & Hone & Hds). split_and!; [done | done |].
  eapply Forall_impl; [exact Hds|]. apply device_line_text.
Qed.

(** One turn of the repeated group takes one line, whatever its text. *)
Lemma run_text_group k d s2 c x :
  text_line d → stops is_dot s2 →
  k s2 (set_cap 2 (render_line d) (clear [2] c)) = Some x →
  run line_group k (render_line d ++ s2) (clear [2] c) = Some x.
Proof.
  intros Hd Hs2 Hk. destruct (text_line_nonempty d Hd) as (a & d' & -> & Ha & Hd').
  unfold line_group. cbn [run]. unfold render_line at 1. cbn [app].
  rewrite Ascii.eqb_refl. rewrite <- app_assoc. rewrite run_indent.
  cbn [app]. rewrite run_Plus_Chr by done.
  apply scan_furthest; [done | done |].
  change (nl :: (indent ++ a :: d') ++ s2) with (render_line (a :: d') ++ s2).
  by rewrite take_consumed.
Qed.

Lemma run_text_lines ds n rest c :
  section_end rest → Forall text_line ds →
  length (concat (render_line <$> ds) ++ rest) ≤ n →
  ∃ c', star (run line_group) [2] accept n (concat (render_line <$> ds) ++ rest) c
        = Some (rest, c')
        ∧ cap 1 c' = cap 1 c.
Proof.
  intros Hrest Hds. revert n c.
  induction Hds as [|d ds Hd _ IH]; intros n c.
  - intros _. cbn [fmap list_fmap concat app]. exists c. split; [|done].
    destruct n as [|n]; [done|]. cbn [star].
    assert (∀ k, run line_group k rest (clear [2] c) = None) as ->; [|done].
    intros k. destruct Hrest as [->|(r & -> & [->|(a & r' & -> & Ha)])];
      [reflexivity | reflexivity |].
    unfold line_group. cbn [run Rep]. rewrite Ascii.eqb_refl. by rewrite Ha.
  - rewrite fmap_cons. cbn [concat]. rewrite <- app_assoc.
    set (s2 := concat (render_line <$> ds) ++ rest) in *.
    rewrite length_render_line. intros Hn.
    destruct n as [|n]; [lia|]. cbn [star].
    assert ((length s2 <? length (render_line d ++ s2)) = true) as Hlt.
    { apply Nat.ltb_lt. rewrite length_render_line. lia. }
    destruct (IH n (set_cap 2 (render_line d) (clear [2] c))) as (c' & Hstar & Hcap);
      [lia|].
    exists c'. split.
    + erewrite run_text_group; [done | done | by apply lines_stop |].
      cbv beta. by rewrite Hlt.
    + rewrite Hcap. cbn [set_cap cap Nat.eqb]. apply cap_clear_other.
      rewrite list_elem_of_singleton. lia.
Qed.

(** The section pattern takes a header and all the indented lines after
    it, whether they are device lines or not. *)
Lemma run_plain_section sec rest :
  plain_section sec → section_end rest →
  ∃ c', run deviceSectionRe accept (render_section sec ++ rest) [] = Some (rest, c')
        ∧ cap 1 c' = Some sec.1.
Proof.
  destruct sec as [v ds]. intros (Hv & Hone & Hds) Hrest. cbn [fst snd] in *.
  destruct v as [|a v]; [done|]. inversion Hone as [|? ? Ha Hv']; subst.
  unfold render_section. cbn [fst snd]. rewrite <- !app_assoc.
  pose proof (lines_stop ds rest Hrest) as Htail.
  destruct (run_text_lines ds (length (concat (render_line <$> ds) ++ rest)) rest
              [(1, a :: v)] Hrest Hds) as (c' & Hstar & Hcap); [done|].
  remember (concat (render_line <$> ds) ++ rest) as tail eqn:Etail. clear Etail.
  assert (starts_with (js " --") tail = false) as Hmis.
  { destruct Htail as [->|(b & r & -> & Hb)]; [done|].
    unfold js. cbn [list_ascii_of_string starts_with].
    destruct (Ascii.eqb_spec " "%char b) as [<-|]; [discriminate Hb | done]. }
  exists c'. split; [|by rewrite Hcap].
  unfold deviceSectionRe. cbn [run]. rewrite run_Lit.
  cbn [app]. rewrite run_Plus_Chr by done.
  apply scan_earlier; [done|].
  rewrite scan_nearest.
  - change (a :: v ++ js " --" ++ tail) with ((a :: v) ++ js " --" ++ tail).
    rewrite take_consumed. rewrite run_Lit. exact Hstar.
  - by repeat constructor.
  - done.
  - intros i Hi. apply run_Lit_mismatch.
    destruct i as [|[|[|i]]]; [reflexivity | reflexivity | exact Hmis |].
    unfold js in Hi. simpl in Hi. lia.
Qed.

Lemma exec_loop_plain_sections secs pre post fuel :
  Forall plain_section secs → postamble post → length secs < fuel →
  ∃ ms,
    exec_loop fuel deviceSectionRe
      (pre ++ concat ((λ sec, nl :: render_section sec) <$> secs) ++ post)
      (length pre) = Some ms
    ∧ Forall2 section_match secs ms.
Proof.
  intros Hsecs [Hend Hpost]. revert pre fuel.
  induction Hsecs as [|sec secs Hsec _ IH]; intros pre fuel Hfuel.
  - destruct fuel as [|fuel]; [lia|]. exists []. split; [|constructor].
    cbn [fmap list_fmap concat app].
    by rewrite exec_loop_S, exec_global_at, postamble_no_match.
  - destruct fuel as [|fuel]; [simpl in Hfuel; lia|].
    rewrite fmap_cons. cbn [concat]. rewrite exec_loop_S, exec_global_at.
    rewrite <- app_assoc.
    set (suf := concat ((λ sec, nl :: render_section sec) <$> secs) ++ post).
    destruct (run_plain_section sec suf Hsec (next_sections_end secs post Hend))
      as (c' & Hrun & Hcap).
    cbn [app]. rewrite search_unfold.
    assert (run deviceSectionRe accept (nl :: render_section sec ++ suf) [] = None)
      as -> by reflexivity.
    rewrite (search_hit _ _ _ _ _ Hrun).
    destruct (IH (pre ++ nl :: render_section sec) fuel) as (ms & Hloop & Hms).
    { simpl in Hfuel. lia. }
    rewrite <- app_assoc in Hloop. cbn [app] in Hloop.
    rewrite length_app in Hloop. cbn [length] in Hloop.
    replace (S (length pre) + length (render_section sec))
      with (length pre + S (length (render_section sec))) by lia.
    fold suf in Hloop. rewrite Hloop. cbn [fmap option_fmap option_map].
    eexists. split; [done|]. by constructor.
Qed.

(** The loop finds every section of a listing, one match each, whatever
    the lines of the sections. *)
Lemma exec_loop_plain_listing pre sec secs post :
  preamble pre → postamble post → Forall plain_section (sec :: secs) →
  ∃ ms,
    exec_loop (length (pre ++ render_listing (sec :: secs) ++ post) + 2)
      deviceSectionRe (pre ++ render_listing (sec :: secs) ++ post) 0 = Some ms
    ∧ Forall2 section_match (sec :: secs) ms.
Proof.
  intros Hpre Hpost Hall. inversion Hall as [|? ? Hsec Hsecs]; subst.
  cbn [render_listing]. rewrite Nat.add_comm. rewrite <- app_assoc.
  set (suf := concat ((λ sec, nl :: render_section sec) <$> secs) ++ post).
  change (2 + length (pre ++ render_section sec ++ suf))
    with (S (S (length (pre ++ render_section sec ++ suf)))).
  rewrite exec_loop_S.
  destruct (run_plain_section sec suf Hsec (next_sections_end secs post (proj1 Hpost)))
    as (c' & Hrun & Hcap).
  change (exec_global deviceSectionRe (pre ++ render_section sec ++ suf) 0)
    with (search deviceSectionRe (pre ++ render_section sec ++ suf) 0).
  rewrite search_skip by (intros t Hne Ht; by apply (preamble_no_match pre)).
  rewrite (search_hit _ _ _ _ _ Hrun). cbn [Nat.add].
  destruct (exec_loop_plain_sections secs (pre ++ render_section sec) post
              (S (length (pre ++ render_section sec ++ suf))) Hsecs Hpost)
    as (ms & Hloop & Hms).
  { pose proof (length_next_sections secs) as Hlen.
    unfold suf. rewrite !length_app. lia. }
  rewrite <- app_assoc in Hloop. fold suf in Hloop.
  rewrite (length_app pre (render_section sec)) in Hloop.
  rewrite Hloop. cbn [fmap option_fmap option_map].
  eexists. split; [done|]. by constructor.
Qed.

Lemma plain_section_lines sec m :
  plain_section sec → section_match sec m →
  section_lines m = (λ d, indent ++ d) <$> sec.2.
Proof.
  destruct sec as [v ds]. intros (_ & Hv & Hds) [Hfull _]. cbn [fst snd] in *.
  unfold section_lines. rewrite Hfull. unfold render_section. cbn [fst snd].
  rewrite !app_assoc.
  rewrite (split_rendered_lines nl (λ d, indent ++ d)); [done| |].
  - rewrite !not_elem_of_app. split_and!; [by apply (bool_decide_unpack _) | |
                                           by apply (bool_decide_unpack _)].
    by apply one_line_no_nl.
  - eapply Forall_impl; [exact Hds|]. intros d [_ Hd]. cbv beta.
    rewrite not_elem_of_app. split; [by apply (bool_decide_unpack _)|].
    by apply one_line_no_nl.
Qed.

Lemma assign_empty_array devices v : has_array (assign_empty devices v) v.
Proof.
  unfold has_array, assign_empty. case_bool_decide; cbn [own proto]; [done|].
  by rewrite lookup_insert_eq.
Qed.

Lemma push_device_array devices v (record : DeviceRecord) :
  has_array devices v →
  ∃ devices', push_device devices v record = Ok devices' ∧ has_array devices' v.
Proof.
  unfold has_array, push_device. case_bool_decide.
  - intros [l ->]. eexists. split; [done|]. by cbn [proto].
  - intros [l ->]. eexists. split; [done|]. cbn [own]. by rewrite lookup_insert_eq.
Qed.

(** The inner loop goes through lines that match and stops with the error
    at the first line that does not. *)
Lemma add_lines_matching sdk lines devices :
  has_array devices (to_key sdk) → lines_match lines →
  ∃ devices', add_lines sdk lines devices = Ok devices'.
Proof.
  intros Harr Hlines. revert devices Harr.
  induction Hlines as [|line lines [m Hm] _ IH]; intros devices Harr; [by eexists|].
  cbn [add_lines]. rewrite Hm.
  destruct (push_device_array devices (to_key sdk)
              {| name := cap 1 (m_caps m); udid := cap 2 (m_caps m);
                 state := cap 3 (m_caps m); sdk := sdk |} Harr) as (devices1 & -> & Harr1).
  cbn [bind]. by apply IH.
Qed.

Lemma add_lines_unmatched sdk good bad (others : list jstring) devices :
  has_array devices (to_key sdk) → lines_match good → exec lineRe bad = None →
  add_lines sdk (good ++ bad :: others) devices
  = Throw (Error (js "Could not match line: " ++ bad)).
Proof.
  intros Harr Hgood Hbad. revert devices Harr.
  induction Hgood as [|line lines [m Hm] _ IH]; intros devices Harr.
  - cbn [app add_lines]. by rewrite Hbad.
  - cbn [app add_lines]. rewrite Hm.
    destruct (push_device_array devices (to_key sdk)
                {| name := cap 1 (m_caps m); udid := cap 2 (m_caps m);
                   state := cap 3 (m_caps m); sdk := sdk |} Harr) as (devices1 & -> & Harr1).
    cbn [bind]. by apply IH.
Qed.

Lemma add_sections_unmatched before m after good bad (others : list jstring) devices :
  Forall (λ m, lines_match (section_lines m)) before →
  section_lines m = good ++ bad :: others → lines_match good → exec lineRe bad = None →
  add_sections (before ++ m :: after) devices
  = Throw (Error (js "Could not match line: " ++ bad)).
Proof.
  intros Hbefore Hm Hgood Hbad. revert devices.
  induction Hbefore as [|m0 before Hm0 _ IH]; intros devices; cbn [app add_sections].
  - rewrite Hm, add_lines_unmatched; [done | apply assign_empty_array | done | done].
  - destruct (add_lines_matching (cap 1 (m_caps m0)) (section_lines m0)
                (assign_empty devices (to_key (cap 1 (m_caps m0)))))
      as [devices1 ->]; [apply assign_empty_array | done |].
    cbn [bind]. apply IH.
Qed.

(** X17. A listing of sections in which some indented line is not a device
    line: the parser goes through the lines in their order and ends at the
    first such line with the error "Could not match line: " followed by the
    line as it stands in the text, indentation included.  No line is
    skipped, and the sections after it are not looked at. *)
Theorem getDevicesByParsing_unmatched_line (pre post v bad : jstring)
    (before after : list section) (good rest : list jstring) :
  preamble pre → postamble post →
  Forall well_formed before → v ≠ [] → one_line v →
  Forall device_line good → text_line bad → exec lineRe (indent ++ bad) = None →
  Forall text_line rest → Forall plain_section after →
  getDevicesByParsing
    (pre ++ render_listing (before ++ (v, good ++ bad :: rest) :: after) ++ post)
  = Some (Throw (Error (js "Could not match line: " ++ indent ++ bad))).
Proof.
  intros Hpre Hpost Hbefore Hv Hone Hgood Hbad Hno Hrest Hafter.
  assert (plain_section (v, good ++ bad :: rest)) as Hsec.
  { split_and!; [done | done |]. cbn [snd]. apply Forall_app. split.
    - eapply Forall_impl; [exact Hgood|]. apply device_line_text.
    - by constructor. }
  assert (Forall plain_section (before ++ (v, good ++ bad :: rest) :: after)) as Hall.
  { apply Forall_app. split; [|by constructor].
    eapply Forall_impl; [exact Hbefore|]. apply well_formed_plain. }
  destruct (before ++ (v, good ++ bad :: rest) :: after) as [|sec secs] eqn:Hsecs.
  { by destruct before. }
  destruct (exec_loop_plain_listing pre sec secs post Hpre Hpost Hall)
    as (ms & Hloop & Hms).
  unfold getDevicesByParsing. rewrite Hloop. cbn [mbind option_bind].
  assert ((length ms <? 1) = false) as ->.
  { apply Nat.ltb_ge. inversion Hms; subst. simpl. lia. }
  rewrite <- Hsecs in Hms, Hall. clear Hsecs Hloop.
  apply Forall2_app_inv_l in Hms as (ms1 & ms2 & Hms1 & Hms2 & ->).
  inversion Hms2 as [|? m ? ms3 Hm _]; subst. f_equal.
  apply (add_sections_unmatched ms1 m ms3 ((λ d, indent ++ d) <$> good)
           (indent ++ bad) ((λ d, indent ++ d) <$> rest)).
  - clear -Hms1 Hbefore. induction Hms1 as [|sec0 m0 secs0 ms0 Hm0 _ IH]; [constructor|].
    inversion Hbefore as [|? ? Hsec0 Hsecs0]; subst. constructor; [|by apply IH].
    rewrite (plain_section_lines sec0 m0 (well_formed_plain _ Hsec0) Hm0).
    unfold lines_match. rewrite Forall_fmap.
    destruct Hsec0 as (_ & _ & Hds). eapply Forall_impl; [exact Hds|]. by intros d [_ ?].
  - rewrite (plain_section_lines _ m Hsec Hm). cbn [snd].
    by rewrite fmap_app, fmap_cons.
  - unfold lines_match. rewrite Forall_fmap.
    eapply Forall_impl; [exact Hgood|]. by intros d [_ ?].
  - done.
Qed.

End PlainSections.

Lemma getDevicesByParsing_unmatched_line_witness :
  render_listing
    [ (js "8.1", [ js "iPhone 4s (3CA6E7DD-220E-45E5-B716-1E992B3A429C) (Shutdown)";
                   js "iPhone 5 (Booted)" ]);
      (js "8.2", [ js "iPhone 4s (A99FFFC3-8E19-4DCF-B585-7D9D46B4C16E) (Shutdown)" ]) ]
  = js "-- iOS 8.1 --
    iPhone 4s (3CA6E7DD-220E-45E5-B716-1E992B3A429C) (Shutdown)
    iPhone 5 (Booted)
-- iOS 8.2 --
    iPhone 4s (A99FFFC3-8E19-4DCF-B585-7D9D46B4C16E) (Shutdown)"
  ∧ getDevicesByParsing
      ([] ++ render_listing
         ([] ++ (js "8.1",
                 [ js "iPhone 4s (3CA6E7DD-220E-45E5-B716-1E992B3A429C) (Shutdown)" ]
                 ++ js "iPhone 5 (Booted)" :: [])
             :: [ (js "8.2",
                   [ js "iPhone 4s (A99FFFC3-8E19-4DCF-B585-7D9D46B4C16E) (Shutdown)" ]) ])
         ++ [])
    = Some (Throw (Error (js "Could not match line:     iPhone 5 (Booted)"))).
Proof.
  split; [vm_compute; reflexivity|].
  apply (getDevicesByParsing_unmatched_line [] [] (js "8.1") (js "iPhone 5 (Booted)")).
  - split; [by left | reflexivity].
  - split; [by left | reflexivity].
  - constructor.
  - done.
  - unfold one_line. apply (bool_decide_unpack _). vm_compute. exact I.
  - unfold device_line, one_line. apply (bool_decide_unpack _). vm_compute. exact I.
  - unfold text_line, one_line. apply (bool_decide_unpack _). vm_compute. exact I.
  - vm_compute. reflexivity.
  - constructor.
  - unfold plain_section, text_line, one_line. apply (bool_decide_unpack _).
    vm_compute. exact I.
Defined.

(** ** Headers that come back *)

Section RepeatedHeaders.

Implicit Types (sec : section) (secs : list section).

Lemma foldl_insert_dom secs (m : gmap jstring (list DeviceRecord)) key :
  is_Some (foldl (λ m sec, <[sec.1 := section_records sec]> m) m secs !! key)
  ↔ is_Some (m !! key) ∨ key ∈ secs.*1.
Proof.
  revert m. induction secs as [|sec secs IH]; intros m.
  - cbn [foldl fmap list_fmap]. split; [by left|]. intros [?|Hin]; [done|].
    by apply elem_of_nil in Hin.
  - cbn [foldl]. rewrite IH, fmap_cons, elem_of_cons, lookup_insert_is_Some'. split.
    + intros [[<-|?]|?]; [right; by left | by left | right; by right].
    + intros [?|[->|?]]; [left; by right | left; by left | by right].
Qed.

Lemma foldl_insert_last (earlier : list section) sec (later : list section)
    (m : gmap jstring (list DeviceRecord)) :
  sec.1 ∉ later.*1 →
  foldl (λ m sec, <[sec.1 := section_records sec]> m) m (earlier ++ sec :: later) !! sec.1
  = Some (section_records sec).
Proof.
  intros Hlater. rewrite foldl_app. cbn [foldl].
  rewrite foldl_insert_other by done. by rewrite lookup_insert_eq.
Qed.

(** X18. A listing may name the same version in several headers.  The
    mapping then has one key for each different version, and under a
    version the records of the last section with that header only: every
    header starts the list of its version afresh. *)
Theorem getDevicesByParsing_last_section_wins (pre post : jstring) (secs : list section) :
  preamble pre → postamble post →
  secs ≠ [] → Forall well_formed secs → proto_key ∉ secs.*1 →
  ∃ devices,
    getDevicesByParsing (pre ++ render_listing secs ++ post) = Some (Ok devices)
    ∧ proto devices = None
    ∧ (∀ key, is_Some (own devices !! key) ↔ key ∈ secs.*1)
    ∧ (∀ (earlier : list section) v ds (later : list section),
         secs = earlier ++ (v, ds) :: later → v ∉ later.*1 →
         own devices !! v = Some (section_records (v, ds))).
Proof.
  intros Hpre Hpost Hne Hwf Hproto. destruct secs as [|sec secs]; [done|].
  destruct (exec_loop_listing pre sec secs post Hpre Hpost Hwf) as (ms & Hloop & Hms).
  unfold getDevicesByParsing. rewrite Hloop. cbn [mbind option_bind].
  assert ((length ms <? 1) = false) as ->.
  { apply Nat.ltb_ge. inversion Hms; subst. simpl. lia. }
  rewrite (add_sections_fold _ _ _ Hms Hwf Hproto). cbn [own proto empty_object].
  eexists. split_and!; [done | done | |]; cbn [own].
  - intros key. rewrite foldl_insert_dom, lookup_empty.
    split; [intros [[? ?]|?]; done | by right].
  - intros earlier v ds later -> Hlater.
    by apply (foldl_insert_last earlier (v, ds) later).
Qed.

End RepeatedHeaders.

Lemma getDevicesByParsing_last_section_wins_witness :
  let first := js "iPhone 4s (3CA6E7DD-220E-45E5-B716-1E992B3A429C) (Shutdown)" in
  let second := js "iPhone 5 (A99FFFC3-8E19-4DCF-B585-7D9D46B4C16E) (Booted)" in
  ∃ devices,
    getDevicesByParsing ([] ++ render_listing [(js "8.1", [first]); (js "8.1", [second])] ++ [])
    = Some (Ok devices)
    ∧ own devices !! js "8.1" = Some (section_records (js "8.1", [second])).
Proof.
  intros first second.
  destruct (getDevicesByParsing_last_section_wins [] []
              [(js "8.1", [first]); (js "8.1", [second])])
    as (devices & Hrun & _ & _ & Hlast).
  - split; [by left | reflexivity].
  - split; [by left | reflexivity].
  - done.
  - unfold well_formed, device_line, one_line. apply (bool_decide_unpack _).
    vm_compute. exact I.
  - apply (bool_decide_unpack _). vm_compute. exact I.
  - exists devices. split; [done|].
    apply (Hlast [(js "8.1", [first])] (js "8.1") [second] []); [done|].
    apply not_elem_of_nil.
Defined.

(** ** The screenshot, case by case *)

Section ScreenshotCases.

Variable sys : collaborators.


End ScreenshotCases.


(** ** Text between the sections *)

Section Interludes.

Implicit Types (s t g pre post : jstring) (sec : section)
  (rest : list (jstring * section)).

(** No match starts in an interlude. *)
Lemma interlude_no_match g s t :
  interlude g → t ≠ [] → t `suffix_of` g →
  run deviceSectionRe accept (t ++ s) [] = None.
Proof.
  intros (q & -> & Hq & _) Hne Ht. destruct t as [|a t]; [done|].
  apply suffix_cons_inv in Ht as [[= -> ->]|Ht]; [reflexivity|].
  by apply (preamble_no_match q).
Qed.

Lemma render_spaced_end rest post :
  Forall (λ gs, interlude gs.1 ∧ well_formed gs.2) rest → section_end post →
  section_end (render_spaced rest ++ post).
Proof.
  intros Hrest Hpost. destruct Hrest as [|[g sec] rest [(q & Hg & _ & Hq) _] _]; [done|].
  cbn [fst snd] in *. subst g. right. unfold render_spaced. rewrite fmap_cons.
  cbn [concat fst snd app]. eexists. split; [done|]. right.
  destruct Hq as [->|(a & q' & -> & Ha)].
  - cbn [app]. unfold render_section, js. cbn [list_ascii_of_string app]. by eexists _, _.
  - cbn [app]. by eexists _, _.
Qed.

Lemma length_render_spaced rest : length rest ≤ length (render_spaced rest).
Proof.
  induction rest as [|[g sec] rest IH]; [done|].
  assert (0 < length (render_section sec)) as Hsec.
  { unfold render_section, js. cbn [list_ascii_of_string app length]. lia. }
  unfold render_spaced in *. rewrite fmap_cons. cbn [concat fst snd length].
  rewrite !length_app. lia.
Qed.

(** From the end of a section on, the loop passes over each interlude and
    collects the section after it. *)
Lemma exec_loop_spaced rest pre post fuel :
  Forall (λ gs, interlude gs.1 ∧ well_formed gs.2) rest → postamble post →
  length rest < fuel →
  ∃ ms,
    exec_loop fuel deviceSectionRe (pre ++ render_spaced rest ++ post) (length pre)
    = Some ms
    ∧ Forall2 section_match rest.*2 ms.
Proof.
  intros Hrest [Hend Hpost]. revert pre fuel.
  induction Hrest as [|[g sec] rest [Hg Hsec] Hrest IH]; intros pre fuel Hfuel.
  - destruct fuel as [|fuel]; [lia|]. exists []. split; [|constructor].
    unfold render_spaced. cbn [fmap list_fmap concat app].
    by rewrite exec_loop_S, exec_global_at, postamble_no_match.
  - destruct fuel as [|fuel]; [simpl in Hfuel; lia|]. cbn [fst snd] in *.
    unfold render_spaced. rewrite fmap_cons. cbn [concat fst snd].
    fold (render_spaced rest). rewrite exec_loop_S, exec_global_at.
    rewrite <- !app_assoc. set (suf := render_spaced rest ++ post).
    destruct (run_section sec suf Hsec (render_spaced_end rest post Hrest Hend))
      as (c' & Hrun & Hcap).
    rewrite search_skip by (intros t Hne Ht; by apply (interlude_no_match g)).
    rewrite (search_hit _ _ _ _ _ Hrun).
    destruct (IH (pre ++ g ++ render_section sec) fuel) as (ms & Hloop & Hms).
    { simpl in Hfuel. lia. }
    rewrite <- !app_assoc in Hloop. fold suf in Hloop.
    rewrite !length_app in Hloop. rewrite <- Nat.add_assoc, Hloop.
    cbn [fmap option_fmap option_map].
    eexists. split; [done|]. rewrite fmap_cons. by constructor.
Qed.

(** The sections of a listing with interludes, as the loop finds them. *)
Lemma exec_loop_spaced_listing pre sec rest post :
  preamble pre → postamble post → well_formed sec →
  Forall (λ gs, interlude gs.1 ∧ well_formed gs.2) rest →
  ∃ ms,
    exec_loop (length (pre ++ render_section sec ++ render_spaced rest ++ post) + 2)
      deviceSectionRe (pre ++ render_section sec ++ render_spaced rest ++ post) 0
    = Some ms
    ∧ Forall2 section_match (sec :: rest.*2) ms.
Proof.
  intros Hpre Hpost Hsec Hrest. rewrite Nat.add_comm.
  set (suf := render_spaced rest ++ post).
  change (2 + length (pre ++ render_section sec ++ suf))
    with (S (S (length (pre ++ render_section sec ++ suf)))).
  rewrite exec_loop_S.
  destruct (run_section sec suf Hsec (render_spaced_end rest post Hrest (proj1 Hpost)))
    as (c' & Hrun & Hcap).
  change (exec_global deviceSectionRe (pre ++ render_section sec ++ suf) 0)
    with (search deviceSectionRe (pre ++ render_section sec ++ suf) 0).
  rewrite search_skip by (intros t Hne Ht; by apply (preamble_no_match pre)).
  rewrite (search_hit _ _ _ _ _ Hrun). cbn [Nat.add].
  destruct (exec_loop_spaced rest (pre ++ render_section sec) post
              (S (length (pre ++ render_section sec ++ suf))) Hrest Hpost)
    as (ms & Hloop & Hms).
  { pose proof (length_render_spaced rest) as Hlen.
    unfold suf. rewrite !length_app. lia. }
  rewrite <- app_assoc in Hloop. fold suf in Hloop.
  rewrite (length_app pre (render_section sec)) in Hloop.
  rewrite Hloop. cbn [fmap option_fmap option_map].
  eexists. split; [done|]. by constructor.
Qed.

(** X20. What stands between the sections does not count: when whole
    lines with no [-- iOS ] in them (the sections of other platforms, for
    one) stand between one section and the next, [getDevicesByParsing]
    returns the mapping that it returns for the sections alone, one after
    the other.  The text before the first section and after the last does
    not count either. *)
Theorem getDevicesByParsing_between_sections (pre post : jstring) (sec : section)
    (rest : list (jstring * section)) :
  preamble pre → postamble post → well_formed sec →
  Forall (λ gs, interlude gs.1 ∧ well_formed gs.2) rest →
  proto_key ∉ (sec :: rest.*2).*1 →
  ∃ devices,
    getDevicesByParsing (pre ++ render_section sec ++ render_spaced rest ++ post)
    = Some (Ok devices)
    ∧ getDevicesByParsing (render_listing (sec :: rest.*2)) = Some (Ok devices)
    ∧ ∀ key, is_Some (own devices !! key) ↔ key ∈ (sec :: rest.*2).*1.
Proof.
  intros Hpre Hpost Hsec Hrest Hproto.
  assert (Forall well_formed (sec :: rest.*2)) as Hwf.
  { constructor; [done|]. rewrite Forall_fmap.
    eapply Forall_impl; [exact Hrest|]. by intros gs [_ ?]. }
  destruct (exec_loop_spaced_listing pre sec rest post Hpre Hpost Hsec Hrest)
    as (ms & Hloop & Hms).
  destruct (exec_loop_listing [] sec rest.*2 []) as (ms' & Hloop' & Hms');
    [by split; [left|] | by split; [left|] | done |].
  rewrite app_nil_r in Hloop'. cbn [app] in Hloop'.
  unfold getDevicesByParsing. rewrite Hloop, Hloop'. cbn [mbind option_bind].
  assert ((length ms <? 1) = false) as ->.
  { apply Nat.ltb_ge. inversion Hms; subst. simpl. lia. }
  assert ((length ms' <? 1) = false) as ->.
  { apply Nat.ltb_ge. inversion Hms'; subst. simpl. lia. }
  rewrite (add_sections_fold _ _ _ Hms Hwf Hproto).
  rewrite (add_sections_fold _ _ _ Hms' Hwf Hproto).
  eexists. split_and!; [done | done |]. intros key. cbn [own empty_object].
  rewrite foldl_insert_dom, lookup_empty.
  split; [intros [[? ?]|?]; done | by right].
Qed.

End Interludes.

Lemma getDevicesByParsing_between_sections_witness :
  let first := (js "8.1", [js "iPhone 4s (3CA6E7DD-220E-45E5-B716-1E992B3A429C) (Shutdown)"]) in
  let second := (js "8.2", [js "iPhone 5 (A99FFFC3-8E19-4DCF-B585-7D9D46B4C16E) (Booted)"]) in
  let other := js "-- tvOS 9.0 --
    Apple TV 1080p (0A1B2C3D-1111-2222-3333-444455556666) (Shutdown)" in
  let text :=
    (js "== Devices ==" ++ [nl]) ++ render_section first
      ++ render_spaced [(nl :: other ++ [nl], second)] ++ [] in
  text = js "== Devices ==
-- iOS 8.1 --
    iPhone 4s (3CA6E7DD-220E-45E5-B716-1E992B3A429C) (Shutdown)
-- tvOS 9.0 --
    Apple TV 1080p (0A1B2C3D-1111-2222-3333-444455556666) (Shutdown)
-- iOS 8.2 --
    iPhone 5 (A99FFFC3-8E19-4DCF-B585-7D9D46B4C16E) (Booted)"
  ∧ ∃ devices,
      getDevicesByParsing text = Some (Ok devices)
      ∧ getDevicesByParsing (render_listing [first; second]) = Some (Ok devices).
Proof.
  intros first second other text. split; [vm_compute; reflexivity|].
  destruct (getDevicesByParsing_between_sections (js "== Devices ==" ++ [nl]) []
              first [(nl :: other ++ [nl], second)]) as (devices & Hrun & Hsame & _).
  - split; [right; by eexists | vm_compute; reflexivity].
  - split; [by left | reflexivity].
  - unfold well_formed, device_line, one_line. apply (bool_decide_unpack _).
    vm_compute. exact I.
  - constructor; [|constructor]. split.
    + exists (other ++ [nl]). split; [reflexivity|]. split.
      * split; [right; by exists other | vm_compute; reflexivity].
      * right. by eexists _, _.
    + unfold well_formed, device_line, one_line. apply (bool_decide_unpack _).
      vm_compute. exact I.
  - apply (bool_decide_unpack _). vm_compute. exact I.
  - by exists devices.
Defined.

(** ** What a matched line looks like *)

Section LineShape.

Implicit Types (k : cont) (s t : jstring) (c : caps).

Lemma star_consumes body gs n :
  consumes body → consumes (λ k, star body gs k n).
Proof.
  intros Hbody. induction n as [|n IH]; intros k s c x Hx.
  - exists [], s, c. by split.
  - cbn [star] in Hx.
    destruct (body _ s (clear gs c)) as [y|] eqn:Hy.
    + injection Hx as ->. apply Hbody in Hy as (w1 & s1 & c1 & -> & Hk).
      destruct (length s1 <? length (w1 ++ s1)); [|done].
      apply IH in Hk as (w2 & s2 & c2 & -> & Hk).
      exists (w1 ++ w2), s2, c2. by rewrite <- app_assoc.
    + exists [], s, c. by split.
Qed.

Lemma run_consumes r : consumes (run r).
Proof.
  induction r as [|p|r1 IH1 r2 IH2|i r IH|r IH|r IH]; intros k s c x Hx; cbn [run] in Hx.
  - exists [], s, c. by split.
  - destruct s as [|a s]; [done|]. destruct (p a); [|done]. by exists [a], s, c.
  - apply IH1 in Hx as (w1 & s1 & c1 & -> & Hx).
    apply IH2 in Hx as (w2 & s2 & c2 & -> & Hx).
    exists (w1 ++ w2), s2, c2. by rewrite <- app_assoc.
  - apply IH in Hx as (w1 & s1 & c1 & -> & Hx). eauto.
  - destruct (run r _ s (clear (groups r) c)) as [y|] eqn:Hy.
    + injection Hx as ->. apply IH in Hy as (w1 & s1 & c1 & -> & Hk).
      destruct (length s1 <? length (w1 ++ s1)); [|done]. eauto.
    + exists [], s, c. by split.
  - by apply (star_consumes (run r) (groups r) (length s) IH) in Hx.
Qed.

Lemma run_Lit_inv l k s c x :
  run (Lit l) k s c = Some x → ∃ s', s = l ++ s' ∧ k s' c = Some x.
Proof.
  revert s. induction l as [|a l IH]; intros s Hx; [by exists s|].
  cbn [Lit run] in Hx. destruct s as [|b s]; [done|].
  destruct (Ascii.eqb_spec a b) as [<-|]; [|done].
  apply IH in Hx as (s' & -> & Hx). by exists s'.
Qed.

Lemma run_lineRe_shape s rest c :
  run lineRe accept s [] = Some (rest, c) →
  ∃ n u st, s = n ++ js " (" ++ u ++ js ") (" ++ st ++ js ")" ++ rest.
Proof.
  rewrite lineRe_groups, !run_Seq. intros Hx.
  apply run_consumes in Hx as (n & s1 & c1 & -> & Hx).
  apply run_Lit_inv in Hx as (s2 & -> & Hx).
  apply run_consumes in Hx as (u & s3 & c3 & -> & Hx).
  apply run_Lit_inv in Hx as (s4 & -> & Hx).
  apply run_consumes in Hx as (st & s5 & c5 & -> & Hx).
  apply run_Lit_inv in Hx as (s6 & -> & [= -> _]).
  by exists n, u, st.
Qed.

Lemma search_lineRe_shape s idx m e :
  search lineRe s idx = Some (m, e) →
  ∃ pad n u st rest,
    s = pad ++ m_full m ++ rest
    ∧ m_full m = n ++ js " (" ++ u ++ js ") (" ++ st ++ js ")".
Proof.
  revert idx m e. induction s as [|a s IH]; intros idx m e; rewrite search_unfold.
  - destruct (run lineRe accept [] []) as [[rest c]|] eqn:Hrun; [|done].
    apply run_lineRe_shape in Hrun as (n & u & st & Hs). by destruct n.
  - destruct (run lineRe accept (a :: s) []) as [[rest c]|] eqn:Hrun.
    + apply run_lineRe_shape in Hrun as (n & u & st & Hs).
      assert (take (length (a :: s) - length rest) (a :: s)
              = n ++ js " (" ++ u ++ js ") (" ++ st ++ js ")") as Hfull.
      { rewrite Hs, !app_assoc, take_consumed. by rewrite <- !app_assoc. }
      intros [= <- _]. cbn [m_full length] in Hfull |- *. rewrite Hfull.
      exists [], n, u, st, rest. split; [|done]. by rewrite Hs, <- !app_assoc.
    + intros Hs. apply IH in Hs as (pad & n & u & st & rest & -> & Hfull).
      by exists (a :: pad), n, u, st, rest.
Qed.

(** X21. A line that the device-line pattern matches holds [ (], then
    [) (], then [)], in this order: the text matched is [<n> (<u>) (<s>)]
    for some texts [n], [u] and [s].  So a line with no opening or no
    closing parenthesis is never matched, wherever it stands. *)
Theorem lineRe_shape (line : jstring) :
  (∀ m, exec lineRe line = Some m →
     ∃ pad n u st rest,
       line = pad ++ m_full m ++ rest
       ∧ m_full m = n ++ js " (" ++ u ++ js ") (" ++ st ++ js ")")
  ∧ ("("%char ∉ line ∨ ")"%char ∉ line → exec lineRe line = None).
Proof.
  assert (∀ m, exec lineRe line = Some m →
            ∃ pad n u st rest,
              line = pad ++ m_full m ++ rest
              ∧ m_full m = n ++ js " (" ++ u ++ js ") (" ++ st ++ js ")") as Hshape.
  { intros m. unfold exec.
    destruct (search lineRe line 0) as [[m' e]|] eqn:Hs; [|done].
    intros [= <-]. by eapply search_lineRe_shape. }
  split; [done|]. intros Hno.
  destruct (exec lineRe line) as [m|] eqn:Hm; [exfalso|done].
  destruct (Hshape m eq_refl) as (pad & n & u & st & rest & -> & Hfull).
  rewrite Hfull in Hno.
  destruct Hno as [Hno|Hno]; apply Hno; rewrite !elem_of_app.
  - right. left. right. left. unfold js. cbn. right. by left.
  - right. left. right. right. right. left. by left.
Qed.

End LineShape.

Lemma lineRe_shape_witness :
  exec lineRe (js "    iPhone 5 [A99FFFC3-8E19-4DCF-B585-7D9D46B4C16E] [Booted]") = None.
Proof.
  apply (proj2 (lineRe_shape _)). left. apply (bool_decide_unpack _). vm_compute. exact I.
Defined.
